(** * iothub: the eventhub client and the iotdevice client

  A shallow embedding of [src/eventhub/client.go], which holds two Go
  packages: [eventhub] (AMQP session client: partition discovery,
  partition fan-in, claims-based-security token put) and [iotdevice]
  (device client: connection lifecycle, data-plane operations, twin
  state).

  Conventions of the embedding.
  - A Go [error] is a value of [Go.error]; a nil error is [None].
  - A closed [chan struct{}] used as a one-shot signal is a [bool]
    ([true] once closed).
  - A [select] statement is [Go.go_select]: among the cases that can
    proceed one is chosen by the scheduler, here an explicit [pick]
    argument; with no ready case the goroutine blocks.
  - External collaborators (the AMQP session, the device transport) are
    interfaces: type classes whose operations thread the collaborator's
    own state.  Every call made to a collaborator is appended to a
    trace, so that "how many times" questions can be asked. *)

From Stdlib Require Import ZArith Lia.
From Stdlib.Floats Require Import SpecFloat.
From stdpp Require Import base option list strings gmap pretty.

#[local] Set Warnings "-register-all".

(** ** Go prelude *)
Module Go.

(** [context.Canceled] and [context.DeadlineExceeded]. *)
Inductive ctx_error := Canceled | DeadlineExceeded.

(** Error values, told apart by where they are made: [errors.New] and
    [fmt.Errorf] in this repository, [ctx.Err()], and errors handed back
    by an external collaborator. *)
Inductive error :=
| errors_New (msg : string)
| context_Err (e : ctx_error)
| external (msg : string).

#[global] Instance ctx_error_eq_dec : EqDecision ctx_error.
Proof. solve_decision. Defined.
#[global] Instance error_eq_dec : EqDecision error.
Proof. solve_decision. Defined.

(** The [Error() string] method. *)
Definition Error (e : error) : string :=
  match e with
  | errors_New msg => msg
  | context_Err Canceled => "context canceled"
  | context_Err DeadlineExceeded => "context deadline exceeded"
  | external msg => msg
  end.

(** A [context.Context], as far as the code looks at it: whether
    [Done()] is closed and, if so, what [Err()] returns. *)
Record Context := mkContext { ctx_Err : option ctx_error }.

Definition ctx_Done (ctx : Context) : bool := bool_decide (is_Some (ctx_Err ctx)).
Definition background : Context := mkContext None.
Definition cancelled : Context := mkContext (Some Canceled).

(** [[]byte]: a nil slice is [None], an empty non-nil slice [Some []]. *)
Definition bytes := option (list Byte.byte).

(** [interface{}] values, by dynamic type. *)
Inductive value :=
| VNil
| VBool (b : bool)
| VInt (n : Z)
| VInt32 (n : Z)
| VInt64 (n : Z)
| VFloat64 (f : spec_float)
| VString (s : string)
| VBytes (b : list Byte.byte)
| VStrings (l : list string)
| VMap (m : gmap string value).

(** The width of [int]: 32 or 64 bits, by platform. *)
Inductive int_size := Int32 | Int64.

Definition int_bits (w : int_size) : Z :=
  match w with Int32 => 32 | Int64 => 64 end.

Definition fits_int (w : int_size) (z : Z) : bool :=
  (- 2 ^ (int_bits w - 1) <=? z)%Z && (z <? 2 ^ (int_bits w - 1))%Z.

(** The integer part of a finite [float64], toward zero; none for an
    infinity or a NaN. *)
Definition float64_trunc (f : spec_float) : option Z :=
  match f with
  | S754_zero _ => Some 0%Z
  | S754_finite s m e =>
      let a := if (0 <=? e)%Z then (Z.pos m * 2 ^ e)%Z
               else (Z.pos m / 2 ^ (- e))%Z in
      Some (if s then (- a)%Z else a)
  | S754_infinity _ | S754_nan => None
  end.

(** The [float64] [f] is exactly the integer [n]. *)
Definition float64_is_Z (f : spec_float) (n : Z) : Prop :=
  match f with
  | S754_zero _ => n = 0%Z
  | S754_finite s m e =>
      ∃ k : Z, n = (if s then - k else k)%Z
        ∧ if (0 <=? e)%Z then k = (Z.pos m * 2 ^ e)%Z
          else Z.pos m = (k * 2 ^ (- e))%Z
  | S754_infinity _ | S754_nan => False
  end.

(** The conversion [int(v)] of a [float64]: the fraction is discarded;
    when [int] cannot represent the value the conversion still succeeds,
    with an implementation-dependent result [impl v]. *)
Definition int_of_float64 (w : int_size) (impl : spec_float → Z) (v : spec_float) : Z :=
  match float64_trunc v with
  | Some z => if fits_int w z then z else impl v
  | None => impl v
  end.

(** The cases of a [select] that can proceed, in source order. *)
Definition ready_cases {A} (cases : list (bool * A)) : list A :=
  (filter (λ c, c.1 = true) cases).*2.

(** [select]: the scheduler's [pick] chooses among the ready cases;
    [None] when none is ready (the goroutine stays blocked). *)
Definition go_select {A} (cases : list (bool * A)) (pick : nat) : option A :=
  let rs := ready_cases cases in rs !! (pick `mod` length rs).

(** [s] has [sub] as a substring. *)
Definition Contains (s sub : string) : Prop :=
  ∃ pre post, s = pre +:+ sub +:+ post.

(** Outcome of a call that may block on a [select]. *)
Inductive outcome (A : Type) :=
| Blocked
| Ret (a : A).
#[global] Arguments Blocked {A}.
#[global] Arguments Ret {A} a.

End Go.

Import Go.

(** ** Package iotdevice *)
Module iotdevice.

(** [transport.Credentials], of which the client reads the device id. *)
Record Credentials := mkCredentials { creds_DeviceID : string }.

(** [common.Message], declared outside [src/]: the fields the client
    reads or sets, with the types the source gives them. *)
Record Message := mkMessage {
  Payload : bytes;
  MessageID : string;
  CorrelationID : string;
  Properties : option (gmap string string);
  TransportOptions : option (gmap string value)
}.

(** [DirectMethodHandler]: handlers are told apart by an identifier. *)
Definition DirectMethodHandler := nat.

(** Calls made to collaborators, in order. *)
Inductive Call :=
| CallConnect
| CallSubscribeEvents
| CallRegisterDirectMethods
| CallRetrieveTwinProperties
| CallUpdateTwinProperties (b : bytes)
| CallSubscribeTwinUpdates
| CallSend (msg : Message)
| CallTrClose
| CallEvMuxClose (err : error)
| CallTsMuxClose (err : error)
| CallDebugf (msg : Message).

(** [transport.Transport], declared outside [src/]: the interface the
    client drives, with the methods the source calls.  Each returns its
    result and the transport's next state. *)
Class Transport (T : Type) := {
  tr_Connect : Context → Credentials → T → option error * T;
  tr_SubscribeEvents : Context → T → option error * T;
  tr_RegisterDirectMethods : Context → T → option error * T;
  tr_RetrieveTwinProperties : Context → T → (bytes * option error) * T;
  tr_UpdateTwinProperties : Context → bytes → T → (Z * option error) * T;
  tr_SubscribeTwinUpdates : Context → T → option error * T;
  tr_Send : Context → Message → T → option error * T;
  tr_Close : T → option error * T
}.

(** Modelled from the spec: the subscription multiplexers ([eventsMux],
    [twinStateMux], [methodMux]) are declared in files of the package
    that are not in [src/].  Section 4.2: [once] runs the setup unless an
    earlier run succeeded; [close] keeps the first error; a registry has
    one handler per method name and a duplicate registration is an
    error. *)
Record mux := mkMux {
  mux_setup : bool;
  mux_closed : option error;
  mux_subs : nat;
  mux_handlers : gmap string DirectMethodHandler
}.

(** Modelled from the spec: [newEventsMux], [newTwinStateMux] and
    [newMethodMux], not in [src/]: nothing set up, not closed, nobody
    subscribed, no handler. *)
Definition newMux : mux := mkMux false None 0 ∅.

(** Modelled from the spec: the [once] method, not in [src/]: the setup
    runs unless an earlier run succeeded, and only success is kept. *)
Definition mux_once {S} (setup : S → option error * S) (m : mux) (s : S)
  : option error * mux * S :=
  if mux_setup m then (None, m, s)
  else
    let '(r, s') := setup s in
    match r with
    | None => (None, mkMux true (mux_closed m) (mux_subs m) (mux_handlers m), s')
    | Some err => (Some err, m, s')
    end.

(** Modelled from the spec: [EventSub] and [TwinStateSub], not in
    [src/]: a subscription handle, here its number and the close error it
    already carries when the multiplexer was closed before. *)
Record Sub := mkSub { sub_id : nat; sub_err : option error }.

(** Modelled from the spec: the [sub] method, not in [src/]: one more
    subscriber in the fan-out set. *)
Definition mux_sub (m : mux) : Sub * mux :=
  (mkSub (mux_subs m) (mux_closed m),
   mkMux (mux_setup m) (mux_closed m) (S (mux_subs m)) (mux_handlers m)).

(** Modelled from the spec: the [close] method, not in [src/]: the first
    error is kept, a second call changes nothing. *)
Definition mux_close (err : error) (m : mux) : mux :=
  match mux_closed m with
  | Some _ => m
  | None => mkMux (mux_setup m) (Some err) (mux_subs m) (mux_handlers m)
  end.

(** Modelled from the spec: the [handle] method of the method registry,
    not in [src/]: a second registration under a name is an error and
    leaves the first handler in place. *)
Definition mux_handle (name : string) (fn : DirectMethodHandler) (m : mux)
  : option error * mux :=
  match mux_handlers m !! name with
  | Some _ => (Some (errors_New "method is already registered"), m)
  | None => (None, mkMux (mux_setup m) (mux_closed m) (mux_subs m)
                     (<[name := fn]> (mux_handlers m)))
  end.

(** [var ErrClosed = errors.New("closed")] *)
Definition ErrClosed : error := errors_New "closed".

Section Client.
Context {T : Type} `{Transport T}.

(** [type Client struct]: [ready] and [done] are the two one-shot
    channels; [calls] is the trace of collaborator calls. *)
Record Client := mkClient {
  creds : Credentials;
  tr : T;
  ready : bool;
  done : bool;
  evMux : mux;
  tsMux : mux;
  dmMux : mux;
  calls : list Call
}.

Definition set_tr (t : T) (c : Client) : Client :=
    mkClient (creds c) t (ready c) (done c) (evMux c) (tsMux c) (dmMux c) (calls c).
Definition set_ready (b : bool) (c : Client) : Client :=
    mkClient (creds c) (tr c) b (done c) (evMux c) (tsMux c) (dmMux c) (calls c).
Definition set_done (b : bool) (c : Client) : Client :=
    mkClient (creds c) (tr c) (ready c) b (evMux c) (tsMux c) (dmMux c) (calls c).
Definition set_evMux (m : mux) (c : Client) : Client :=
    mkClient (creds c) (tr c) (ready c) (done c) m (tsMux c) (dmMux c) (calls c).
Definition set_tsMux (m : mux) (c : Client) : Client :=
    mkClient (creds c) (tr c) (ready c) (done c) (evMux c) m (dmMux c) (calls c).
Definition set_dmMux (m : mux) (c : Client) : Client :=
    mkClient (creds c) (tr c) (ready c) (done c) (evMux c) (tsMux c) m (calls c).
Definition record (k : Call) (c : Client) : Client :=
    mkClient (creds c) (tr c) (ready c) (done c) (evMux c) (tsMux c) (dmMux c)
             (calls c ++ [k]).

(** What [New] leaves behind once the options are applied. *)
Definition New (cr : Credentials) (t : T) : Client :=
    mkClient cr t false false newMux newMux newMux [].

Definition DeviceID (c : Client) : string := creds_DeviceID (creds c).

(** [Connect]: under the lock, fail when [ready] is already closed,
      otherwise connect the transport and close [ready] on success. *)
Definition Connect (ctx : Context) (c : Client) : option error * Client :=
    if ready c then (Some (errors_New "already connected"), c)
    else
      let '(err, t') := tr_Connect ctx (creds c) (tr c) in
      let c1 := record CallConnect (set_tr t' c) in
      match err with
      | None => (None, set_ready true c1)
      | Some e => (Some e, c1)
      end.

(** The three cases of the [select] in [checkConnection]. *)
Definition checkConnection_cases (c : Client) (ctx : Context)
    : list (bool * option error) :=
    [ (ready c, None);
      (done c, Some ErrClosed);
      (ctx_Done ctx, context_Err <$> ctx_Err ctx) ].

Definition checkConnection (pick : nat) (ctx : Context) (c : Client)
    : option (option error) :=
    go_select (checkConnection_cases c ctx) pick.

(** [Close]: under the lock; a closed [done] returns nil at once,
      otherwise [done] is closed, the events and twin multiplexers are
      closed with [ErrClosed] and the transport is closed. *)
Definition Close (c : Client) : option error * Client :=
    if done c then (None, c)
    else
      let c1 := set_done true c in
      let c2 := record (CallEvMuxClose ErrClosed)
                  (set_evMux (mux_close ErrClosed (evMux c1)) c1) in
      let c3 := record (CallTsMuxClose ErrClosed)
                  (set_tsMux (mux_close ErrClosed (tsMux c2)) c2) in
      let '(err, t') := tr_Close (tr c3) in
      (err, record CallTrClose (set_tr t' c3)).

(** *** Subscriptions and direct methods *)

Definition SubscribeEvents (pick : nat) (ctx : Context) (c : Client)
  : outcome (option Sub * option error * Client) :=
  match checkConnection pick ctx c with
  | None => Blocked
  | Some (Some err) => Ret (None, Some err, c)
  | Some None =>
      let setup (c : Client) :=
        let '(r, t') := tr_SubscribeEvents ctx (tr c) in
        (r, record CallSubscribeEvents (set_tr t' c)) in
      let '(r, m', c') := mux_once setup (evMux c) c in
      match r with
      | Some err => Ret (None, Some err, set_evMux m' c')
      | None =>
          let '(sub, m'') := mux_sub m' in
          Ret (Some sub, None, set_evMux m'' c')
      end
  end.

Definition RegisterMethod (pick : nat) (ctx : Context) (name : string)
    (fn : DirectMethodHandler) (c : Client) : outcome (option error * Client) :=
  match checkConnection pick ctx c with
  | None => Blocked
  | Some (Some err) => Ret (Some err, c)
  | Some None =>
      if decide (name = "") then Ret (Some (errors_New "name cannot be blank"), c)
      else
        let setup (c : Client) :=
          let '(r, t') := tr_RegisterDirectMethods ctx (tr c) in
          (r, record CallRegisterDirectMethods (set_tr t' c)) in
        let '(r, m', c') := mux_once setup (dmMux c) c in
        match r with
        | Some err => Ret (Some err, set_dmMux m' c')
        | None =>
            let '(r', m'') := mux_handle name fn m' in
            Ret (r', set_dmMux m'' c')
        end
  end.

(** *** Twin state *)

(** [type TwinState map[string]interface{}] *)
Abbreviation TwinState := (gmap string value).

Variable int_width : int_size.
Variable int_impl : spec_float → Z.

(** [Version]: the comma-ok assertion to [float64] leaves the zero value
    when the key is missing or holds another type; then [int(v)]. *)
Definition Version (s : TwinState) : Z :=
  let v := match s !! "$version" with
           | Some (VFloat64 f) => f
           | _ => S754_zero false
           end in
  int_of_float64 int_width int_impl v.

(** [encoding/json], as the client uses it. *)
Variable json_Unmarshal_twin : bytes → (option TwinState * option TwinState) + error.
Variable json_Marshal : TwinState → bytes * option error.

Definition RetrieveTwinState (pick : nat) (ctx : Context) (c : Client)
  : outcome (option TwinState * option TwinState * option error * Client) :=
  match checkConnection pick ctx c with
  | None => Blocked
  | Some (Some err) => Ret (None, None, Some err, c)
  | Some None =>
      let '(b, err, t') := tr_RetrieveTwinProperties ctx (tr c) in
      let c' := record CallRetrieveTwinProperties (set_tr t' c) in
      match err with
      | Some e => Ret (None, None, Some e, c')
      | None =>
          match json_Unmarshal_twin b with
          | inr e => Ret (None, None, Some e, c')
          | inl (desired, reported) => Ret (desired, reported, None, c')
          end
      end
  end.

Definition UpdateTwinState (pick : nat) (ctx : Context) (s : TwinState) (c : Client)
  : outcome (Z * option error * Client) :=
  match checkConnection pick ctx c with
  | None => Blocked
  | Some (Some err) => Ret (0%Z, Some err, c)
  | Some None =>
      let '(b, err) := json_Marshal s in
      match err with
      | Some e => Ret (0%Z, Some e, c)
      | None =>
          let '(v, err', t') := tr_UpdateTwinProperties ctx b (tr c) in
          Ret (v, err', record (CallUpdateTwinProperties b) (set_tr t' c))
      end
  end.

Definition SubscribeTwinUpdates (pick : nat) (ctx : Context) (c : Client)
  : outcome (option Sub * option error * Client) :=
  match checkConnection pick ctx c with
  | None => Blocked
  | Some (Some err) => Ret (None, Some err, c)
  | Some None =>
      let setup (c : Client) :=
        let '(r, t') := tr_SubscribeTwinUpdates ctx (tr c) in
        (r, record CallSubscribeTwinUpdates (set_tr t' c)) in
      let '(r, m', c') := mux_once setup (tsMux c) c in
      match r with
      | Some err => Ret (None, Some err, set_tsMux m' c')
      | None =>
          let '(sub, m'') := mux_sub m' in
          Ret (Some sub, None, set_tsMux m'' c')
      end
  end.

(** *** Sending events *)

(** [type SendOption func(msg *common.Message) error]: the option edits
    the message in place and may fail. *)
Definition SendOption := Message → option error * Message.

Definition WithSendQoS (qos : Z) : SendOption := λ msg,
  let topts := default ∅ (TransportOptions msg) in
  (None, mkMessage (Payload msg) (MessageID msg) (CorrelationID msg) (Properties msg)
           (Some (<["qos" := VInt qos]> topts))).

Definition WithSendMessageID (mid : string) : SendOption := λ msg,
  (None, mkMessage (Payload msg) mid (CorrelationID msg) (Properties msg)
           (TransportOptions msg)).

Definition WithSendCorrelationID (cid : string) : SendOption := λ msg,
  (None, mkMessage (Payload msg) (MessageID msg) cid (Properties msg)
           (TransportOptions msg)).

Definition WithSendProperty (k v : string) : SendOption := λ msg,
  let props := default ∅ (Properties msg) in
  (None, mkMessage (Payload msg) (MessageID msg) (CorrelationID msg)
           (Some (<[k := v]> props)) (TransportOptions msg)).

(** Ranging over [m] and assigning each pair: the keys of [m] win. *)
Definition WithSendProperties (m : gmap string string) : SendOption := λ msg,
  let props := default ∅ (Properties msg) in
  (None, mkMessage (Payload msg) (MessageID msg) (CorrelationID msg)
           (Some (m ∪ props)) (TransportOptions msg)).

(** The [for _, opt := range opts] loop of [SendEvent]: the first failing
    option ends it. *)
Fixpoint apply_opts (opts : list SendOption) (msg : Message) : error + Message :=
  match opts with
  | [] => inr msg
  | opt :: rest =>
      match opt msg with
      | (Some err, _) => inl err
      | (None, msg') => apply_opts rest msg'
      end
  end.

(** [SendEvent]: wait for the connection, refuse a nil payload, apply the
    options, hand the message to the transport, log it on success. *)
Definition SendEvent (pick : nat) (ctx : Context) (payload : bytes)
    (opts : list SendOption) (c : Client) : outcome (option error * Client) :=
  match checkConnection pick ctx c with
  | None => Blocked
  | Some (Some err) => Ret (Some err, c)
  | Some None =>
      match payload with
      | None => Ret (Some (errors_New "payload is nil"), c)
      | Some _ =>
          match apply_opts opts (mkMessage payload "" "" None None) with
          | inl err => Ret (Some err, c)
          | inr msg =>
              let '(r, t') := tr_Send ctx msg (tr c) in
              let c' := record (CallSend msg) (set_tr t' c) in
              match r with
              | Some err => Ret (Some err, c')
              | None => Ret (None, record (CallDebugf msg) c')
              end
          end
      end
  end.

(** A sequence of [n] calls of [Close], with the result of each. *)
Fixpoint Close_n (n : nat) (c : Client) : list (option error) * Client :=
  match n with
  | O => ([], c)
  | S n' =>
      let '(r, c') := Close c in
      let '(rs, c'') := Close_n n' c' in
      (r :: rs, c'')
  end.

(** The send options of the package. *)
Inductive builtin_option : SendOption → Prop :=
| builtin_QoS qos : builtin_option (WithSendQoS qos)
| builtin_MessageID mid : builtin_option (WithSendMessageID mid)
| builtin_CorrelationID cid : builtin_option (WithSendCorrelationID cid)
| builtin_Property k v : builtin_option (WithSendProperty k v)
| builtin_Properties m : builtin_option (WithSendProperties m).

(** *** Construction *)

(** [common.Logger]: loggers are told apart by an identifier. *)
Definition Logger := nat.

(** [tls.Certificate], as far as the options hand it on. *)
Definition Certificate := nat.

(** The client while [New] builds it: [creds] and [tr] may still be
    nil. *)
Record builder := mkBuilder {
  b_creds : option Credentials;
  b_tr : option T;
  b_logger : Logger
}.

(** [type ClientOption func(c *Client) error] *)
Definition ClientOption := builder → option error * builder.

(** [NewSASCredentials] and [NewX509Credentials] are declared outside
    [src/]; [tls.LoadX509KeyPair] is the standard library's; [SetLogger]
    is the method of [transport.Transport] that [New] calls. *)
Variable NewSASCredentials : string → Credentials + error.
Variable NewX509Credentials : string → string → Certificate → Credentials + error.
Variable LoadX509KeyPair : string → string → Certificate + error.
Variable tr_SetLogger : Logger → T → T.

Definition WithLogger (l : Logger) : ClientOption := λ b,
  (None, mkBuilder (b_creds b) (b_tr b) l).

(** [WithTransport] panics on a nil transport, before any option
    exists. *)
Definition WithTransport (t : option T) : string + ClientOption :=
  match t with
  | None => inl "transport is nil"
  | Some t => inr (λ b, (None, mkBuilder (b_creds b) (Some t) (b_logger b)))
  end.

Definition WithCredentials (cr : option Credentials) : string + ClientOption :=
  match cr with
  | None => inl "creds is nil"
  | Some cr => inr (λ b, (None, mkBuilder (Some cr) (b_tr b) (b_logger b)))
  end.

(** [c.creds, err = NewSASCredentials(cs)]: on an error the field is
    overwritten with the nil that comes back. *)
Definition WithConnectionString (cs : string) : ClientOption := λ b,
  match NewSASCredentials cs with
  | inl cr => (None, mkBuilder (Some cr) (b_tr b) (b_logger b))
  | inr err => (Some err, mkBuilder None (b_tr b) (b_logger b))
  end.

Definition WithX509FromCert (deviceID hostname : string) (crt : Certificate)
  : ClientOption := λ b,
  match NewX509Credentials deviceID hostname crt with
  | inl cr => (None, mkBuilder (Some cr) (b_tr b) (b_logger b))
  | inr err => (Some err, mkBuilder None (b_tr b) (b_logger b))
  end.

Definition WithX509FromFile (deviceID hostname certFile keyFile : string)
  : ClientOption := λ b,
  match LoadX509KeyPair certFile keyFile with
  | inr err => (Some err, b)
  | inl crt => WithX509FromCert deviceID hostname crt b
  end.

(** The [for _, opt := range opts] loop of [New]. *)
Fixpoint apply_client_opts (opts : list ClientOption) (b : builder) : error + builder :=
  match opts with
  | [] => inr b
  | opt :: rest =>
      match opt b with
      | (Some err, _) => inl err
      | (None, b') => apply_client_opts rest b'
      end
  end.

(** [New(opts...)]: [env_cs] is what
    [os.Getenv("IOTHUB_DEVICE_CONNECTION_STRING")] returns and
    [env_logger] what [common.NewLoggerFromEnv] returns. *)
Definition NewClient (env_cs : string) (env_logger : Logger) (opts : list ClientOption)
  : Client + error :=
  match apply_client_opts opts (mkBuilder None None env_logger) with
  | inl err => inr err
  | inr b =>
      match b_tr b with
      | None => inr (errors_New "transport required")
      | Some t =>
          match b_creds b with
          | Some cr => inl (New cr (tr_SetLogger (b_logger b) t))
          | None =>
              if decide (env_cs = EmptyString)
              then inr (errors_New "$IOTHUB_DEVICE_CONNECTION_STRING is empty")
              else
                match NewSASCredentials env_cs with
                | inr err => inr err
                | inl cr => inl (New cr (tr_SetLogger (b_logger b) t))
                end
          end
      end
  end.

End Client.
#[global] Arguments Client T : clear implicits.
#[global] Arguments builder T : clear implicits.
#[global] Arguments ClientOption T : clear implicits.

End iotdevice.

(** ** Package eventhub *)
Module eventhub.

(** [amqp.MessageProperties], with the fields the package reads or sets.
    [MessageID] and [CorrelationID] are [interface{}] in the library. *)
Record MessageProperties := mkProperties {
  MessageID : value;
  To : string;
  ReplyTo : string;
  CorrelationID : value
}.

(** [amqp.Message].  [Properties] is a pointer: [None] is nil, a message
    without a properties section.  [EnqueuedTime] is the broker's
    [x-opt-enqueuedtimeutc] annotation, in milliseconds. *)
Record Message := mkMessage {
  Value : value;
  Properties : option MessageProperties;
  ApplicationProperties : gmap string value;
  EnqueuedTime : Z
}.

(** The selector expression given to [amqp.LinkSelectorFilter]. *)
Inductive Selector :=
| EnqueuedTimeGt (ms : Z).

(** Its text, as [fmt.Sprintf] builds it in [SubscribePartitions]. *)
Definition selector_text (f : Selector) : string :=
  match f with
  | EnqueuedTimeGt ms =>
      "amqp.annotation.x-opt-enqueuedtimeutc > '" +:+ pretty ms +:+ "'"
  end.

(** What the broker does with the selector: a message passes when its
    annotation is greater than the bound. *)
Definition selector_admits (f : Selector) (m : Message) : bool :=
  match f with
  | EnqueuedTimeGt ms => (ms <? EnqueuedTime m)%Z
  end.

Inductive LinkOption :=
| LinkSourceAddress (addr : string)
| LinkTargetAddress (addr : string)
| LinkSelectorFilter (f : Selector).

(** A message passes a link when it passes every selector of the link. *)
Definition link_admits (opts : list LinkOption) (m : Message) : bool :=
  forallb (λ o, match o with
                | LinkSelectorFilter f => selector_admits f m
                | _ => true
                end) opts.

(** [*amqp.Sender] and [*amqp.Receiver]: the identifier the session gave
    the link, and the options it was opened with. *)
Record Link := mkLink { link_id : nat; link_opts : list LinkOption }.

(** The Go runtime and the libraries the package calls ([pack.ag/amqp],
    [go.uuid], [time], the [%q] verb of [fmt]); [W] is their state. *)
Class Env (W : Type) := {
  uuid_NewV4 : W → string * W;
  time_Now_UnixNano : W → Z * W;
  fmt_q : value → string;
  sess_NewSender : list LinkOption → W → (nat + error) * W;
  sess_NewReceiver : list LinkOption → W → (nat + error) * W;
  sender_Send : Link → Context → Message → W → option error * W;
  receiver_Receive : Link → Context → W → (Message + error) * W;
  msg_Accept : Message → W → W;
  sender_Close : Link → W → option error * W;
  receiver_Close : Link → W → option error * W;
  sess_Close : W → option error * W;
  conn_Close : W → option error * W
}.

(** Calls made to the libraries, in order, with what came back where the
    code branches on it. *)
Inductive Call :=
| CallNewSender (opts : list LinkOption) (r : nat + error)
| CallNewReceiver (opts : list LinkOption) (r : nat + error)
| CallSend (l : Link) (msg : Message) (r : option error)
| CallReceive (l : Link) (r : Message + error)
| CallAccept (msg : Message)
| CallSenderClose (l : Link)
| CallReceiverClose (l : Link)
| CallSessClose (r : option error)
| CallConnClose (r : option error)
| CallNow (t : Z)
| CallLogPrintf (line : string).

(** [CheckMessageResponse]: the comma-ok assertion of the status code to
    [int32], then 200 or an error built from code and description. *)
Definition CheckMessageResponse `{Env W} (msg : Message) : option error :=
  match ApplicationProperties msg !! "status-code" with
  | Some (VInt32 rc) =>
      if decide (rc = 200%Z) then None
      else
        let rd := default VNil (ApplicationProperties msg !! "status-description") in
        Some (errors_New ("code = " +:+ pretty rc +:+ ", description = " +:+ fmt_q rd))
  | _ => Some (errors_New "unable to typecast status-code")
  end.

(** [amqp.Dial] and the [NewSession] method of the connection, which
    only [Dial] calls. *)
Class Dialer (W : Type) := {
  amqp_Dial : string → W → option error * W;
  conn_NewSession : W → option error * W
}.

Section Session.
Context {W : Type} `{Env W}.

(** The session together with the trace of calls. *)
Record St := mkSt { st_world : W; st_calls : list Call }.

(** Sequential code over the session. *)
Definition M (A : Type) : Type := St → A * St.

Definition ret {A} (a : A) : M A := λ st, (a, st).
Definition bind {A B} (m : M A) (k : A → M B) : M B :=
  λ st, let '(a, st') := m st in k a st'.

Notation "'let*' x ':=' m 'in' k" := (bind m (λ x, k))
  (at level 10, x pattern, m at level 100, k at level 200, only parsing).

(** [defer f]: [f] runs when the body has returned. *)
Definition defer {A} (f : M unit) (body : M A) : M A :=
  let* r := body in let* _ := f in ret r.

Definition call {A} (op : W → A * W) (log : A → Call) : M A :=
  λ st, let '(a, w') := op (st_world st) in
        (a, mkSt w' (st_calls st ++ [log a])).

Definition NewV4 : M string :=
  λ st, let '(u, w') := uuid_NewV4 (st_world st) in (u, mkSt w' (st_calls st)).

Definition Now_UnixNano : M Z := call time_Now_UnixNano CallNow.

Definition NewSender (opts : list LinkOption) : M (Link + error) :=
  let* r := call (sess_NewSender opts) (CallNewSender opts) in
  ret (match r with inl n => inl (mkLink n opts) | inr e => inr e end).

Definition NewReceiver (opts : list LinkOption) : M (Link + error) :=
  let* r := call (sess_NewReceiver opts) (CallNewReceiver opts) in
  ret (match r with inl n => inl (mkLink n opts) | inr e => inr e end).

Definition Send (l : Link) (ctx : Context) (msg : Message) : M (option error) :=
  call (sender_Send l ctx msg) (CallSend l msg).

Definition Receive (l : Link) (ctx : Context) : M (Message + error) :=
  call (receiver_Receive l ctx) (CallReceive l).

Definition Accept (msg : Message) : M unit :=
  λ st, (tt, mkSt (msg_Accept msg (st_world st)) (st_calls st ++ [CallAccept msg])).

Definition SenderClose (l : Link) : M unit :=
  λ st, let '(_, w') := sender_Close l (st_world st) in
        (tt, mkSt w' (st_calls st ++ [CallSenderClose l])).

Definition ReceiverClose (l : Link) : M unit :=
  λ st, let '(_, w') := receiver_Close l (st_world st) in
        (tt, mkSt w' (st_calls st ++ [CallReceiverClose l])).

Definition Printf (line : string) : M unit :=
  λ st, (tt, mkSt (st_world st) (st_calls st ++ [CallLogPrintf line])).

(** The calls a run made, from the state before it and the one after. *)
Definition new_calls (st st' : St) : list Call :=
  drop (length (st_calls st)) (st_calls st').

(** The token message of [PutToken]. *)
Definition put_token_message (audience token mid : string) : Message :=
  mkMessage (VString token)
    (Some (mkProperties (VString mid) "$cbs" "cbs" VNil))
    (<["operation" := VString "put-token"]>
      (<["type" := VString "servicebus.windows.net:sastoken"]>
        (<["name" := VString audience]> ∅)))
    0.

(** [PutToken]: open the two [$cbs] links, send the token, wait for the
    response, check it, accept it. *)
Definition PutToken (ctx : Context) (audience token : string) : M (option error) :=
  let* send := NewSender [LinkTargetAddress "$cbs"] in
  match send with
  | inr err => ret (Some err)
  | inl send =>
    defer (SenderClose send) (
      let* recv := NewReceiver [LinkSourceAddress "$cbs"] in
      match recv with
      | inr err => ret (Some err)
      | inl recv =>
        defer (ReceiverClose recv) (
          let* mid := NewV4 in
          let* err := Send send ctx (put_token_message audience token mid) in
          match err with
          | Some e => ret (Some e)
          | None =>
            let* r := Receive recv ctx in
            match r with
            | inr e => ret (Some e)
            | inl msg =>
              match CheckMessageResponse msg with
              | Some e => ret (Some e)
              | None => let* _ := Accept msg in ret None
              end
            end
          end)
      end)
  end.

(** What wakes the [select] of the renewal goroutine: the hourly timer
    or the closed [stopCh]. *)
Inductive wake := Tick | Stop.

(** Where the renewal goroutine is. *)
Inductive loop_status := Waiting | Exited.

(** The goroutine started by [PutTokenContinuously], run over the wakes
    of its [select] in order: on a tick it puts the token again and, on
    an error, logs it and returns; on stop it returns. *)
Fixpoint renewal_loop (ctx : Context) (audience token : string) (wakes : list wake)
  : M loop_status :=
  match wakes with
  | [] => ret Waiting
  | Stop :: _ => ret Exited
  | Tick :: rest =>
      let* err := PutToken ctx audience token in
      match err with
      | Some e =>
          let* _ := Printf ("put token error: " +:+ Error e) in
          ret Exited
      | None => renewal_loop ctx audience token rest
      end
  end.

(** [PutTokenContinuously]: the first put decides the result; the
    goroutine is started only after it succeeded.  The second component
    is the goroutine, if one was started. *)
Definition PutTokenContinuously (ctx : Context) (audience token : string)
  : M (option error * option (list wake → M loop_status)) :=
  let* err := PutToken ctx audience token in
  match err with
  | Some e => ret (Some e, None)
  | None => ret (None, Some (renewal_loop ctx audience token))
  end.

(** The caller's result, then the goroutine (if any) run over [wakes]. *)
Definition PutTokenContinuously_then (ctx : Context) (audience token : string)
    (wakes : list wake) : M (option error * option loop_status) :=
  let* started := PutTokenContinuously ctx audience token in
  match started with
  | (r, None) => ret (r, None)
  | (r, Some loop) => let* ls := loop wakes in ret (r, Some ls)
  end.

(** [type Client struct]: the connection and the session live in the
    library state; [done] is the one-shot channel. *)
Record Client := mkClient { cl_st : St; done : bool }.

(** [Close]: under the lock; a closed [done] returns nil at once,
    otherwise [done] is closed, the session is closed and, when that
    succeeded, the connection. *)
Definition Close (c : Client) : option error * Client :=
  if done c then (None, c)
  else
    let '(r, st1) := call sess_Close CallSessClose (cl_st c) in
    match r with
    | Some err => (Some err, mkClient st1 true)
    | None =>
        let '(r', st2) := call conn_Close CallConnClose st1 in
        (r', mkClient st2 true)
    end.

Fixpoint Close_n (n : nat) (c : Client) : list (option error) * Client :=
  match n with
  | O => ([], c)
  | S n' =>
      let '(r, c') := Close c in
      let '(rs, c'') := Close_n n' c' in
      (r :: rs, c'')
  end.

(** How [getPartitionIDs] ends: with the identifiers, with an error, or
    with a run-time panic. *)
Inductive ids_result :=
| Ids (ids : list string)
| IdsErr (err : error)
| IdsPanic (msg : string).

(** The management request of [getPartitionIDs]. *)
Definition read_request (name msgID replyTo : string) : Message :=
  mkMessage VNil
    (Some (mkProperties (VString msgID) "" replyTo VNil))
    (<["operation" := VString "READ"]>
      (<["name" := VString name]>
        (<["type" := VString "com.microsoft:eventhub"]> ∅)))
    0.

(** The checks on the response, in source order: status code,
    correlation id (through the [Properties] pointer), payload. The
    boolean tells whether the message was accepted on the way. *)
Definition read_response (msgID : string) (msg : Message) : ids_result * bool :=
  match CheckMessageResponse msg with
  | Some err => (IdsErr err, false)
  | None =>
      match Properties msg with
      | None => (IdsPanic "invalid memory address or nil pointer dereference", false)
      | Some p =>
          if match CorrelationID p with
             | VString cid => bool_decide (cid = msgID)
             | _ => false
             end
          then
            match Value msg with
            | VMap val =>
                match val !! "partition_ids" with
                | Some (VStrings ids) => (Ids ids, true)
                | _ => (IdsErr (errors_New "unable to typecast partition_ids"), true)
                end
            | _ => (IdsErr (errors_New "unable to typecast value"), true)
            end
          else (IdsErr (errors_New "message-id mismatch"), false)
      end
  end.

(** [getPartitionIDs]: open the two [$management] links around a fresh
    reply address, send the READ request under a fresh message id, wait
    for the response and check it. *)
Definition getPartitionIDs (ctx : Context) (name : string) : M ids_result :=
  let* replyTo := NewV4 in
  let* recv := NewReceiver [LinkSourceAddress "$management"; LinkTargetAddress replyTo] in
  match recv with
  | inr err => ret (IdsErr err)
  | inl recv =>
    defer (ReceiverClose recv) (
      let* send := NewSender [LinkTargetAddress "$management"; LinkSourceAddress replyTo] in
      match send with
      | inr err => ret (IdsErr err)
      | inl send =>
        defer (SenderClose send) (
          let* msgID := NewV4 in
          let* err := Send send ctx (read_request name msgID replyTo) in
          match err with
          | Some e => ret (IdsErr e)
          | None =>
            let* r := Receive recv ctx in
            match r with
            | inr e => ret (IdsErr e)
            | inl msg =>
              let '(res, accepted) := read_response msgID msg in
              if accepted then let* _ := Accept msg in ret res
              else ret res
            end
          end)
      end)
  end.

(** *** The partition fan-in

    [SubscribePartitions] runs several goroutines: the caller's, which
    opens the receivers and then loops on a [select], and one per
    partition.  They are modelled as a transition system: a state holds
    the two channels, every goroutine's position and the derived
    context; a step runs one goroutine up to its next communication. *)

(** The options of one partition's receiver; [now] is what
    [time.Now().UnixNano()] returned.  [/] on [int64] truncates. *)
Definition partition_link_options (name group id : string) (now : Z) : list LinkOption :=
  [ LinkSourceAddress ("/" +:+ name +:+ "/ConsumerGroups/" +:+ group +:+ "/Partitions/" +:+ id);
    LinkSelectorFilter (EnqueuedTimeGt (now `quot` 1000000)%Z) ].

(** Where a partition goroutine is: about to call [r.Receive], about to
    send on [msgc] or on [errc], about to run the deferred [recv.Close],
    or gone. *)
Inductive worker_pc :=
| WReceive
| WSendMsg (m : Message)
| WSendErr (e : error)
| WClose
| WExit.

Record Worker := mkWorker { w_recv : Link; w_pc : worker_pc }.

(** Where the caller's goroutine is: in the [for _, id := range ids]
    loop with the identifiers still to open (with none left, in the
    [select] loop), or returned. *)
Inductive main_pc :=
| MRunning (to_open : list string)
| MReturned (err : error).

Record FanIn := mkFanIn {
  fan_name : string;
  fan_group : string;
  fan_st : St;
  fan_ctx : Context;
  fan_cap : nat;
  fan_msgc : list Message;
  fan_errc : list error;
  fan_workers : list Worker;
  fan_main : main_pc;
  fan_dispatched : list Message;
  fan_errs_sent : list error
}.

Definition set_st (st : St) (s : FanIn) : FanIn :=
  mkFanIn (fan_name s) (fan_group s) st (fan_ctx s) (fan_cap s) (fan_msgc s)
          (fan_errc s) (fan_workers s) (fan_main s) (fan_dispatched s) (fan_errs_sent s).
Definition set_ctx (ctx : Context) (s : FanIn) : FanIn :=
  mkFanIn (fan_name s) (fan_group s) (fan_st s) ctx (fan_cap s) (fan_msgc s)
          (fan_errc s) (fan_workers s) (fan_main s) (fan_dispatched s) (fan_errs_sent s).
Definition set_msgc (q : list Message) (s : FanIn) : FanIn :=
  mkFanIn (fan_name s) (fan_group s) (fan_st s) (fan_ctx s) (fan_cap s) q
          (fan_errc s) (fan_workers s) (fan_main s) (fan_dispatched s) (fan_errs_sent s).
Definition set_errc (q : list error) (s : FanIn) : FanIn :=
  mkFanIn (fan_name s) (fan_group s) (fan_st s) (fan_ctx s) (fan_cap s) (fan_msgc s)
          q (fan_workers s) (fan_main s) (fan_dispatched s) (fan_errs_sent s).
Definition set_workers (ws : list Worker) (s : FanIn) : FanIn :=
  mkFanIn (fan_name s) (fan_group s) (fan_st s) (fan_ctx s) (fan_cap s) (fan_msgc s)
          (fan_errc s) ws (fan_main s) (fan_dispatched s) (fan_errs_sent s).
Definition set_main (pc : main_pc) (s : FanIn) : FanIn :=
  mkFanIn (fan_name s) (fan_group s) (fan_st s) (fan_ctx s) (fan_cap s) (fan_msgc s)
          (fan_errc s) (fan_workers s) pc (fan_dispatched s) (fan_errs_sent s).
Definition set_dispatched (d : list Message) (s : FanIn) : FanIn :=
  mkFanIn (fan_name s) (fan_group s) (fan_st s) (fan_ctx s) (fan_cap s) (fan_msgc s)
          (fan_errc s) (fan_workers s) (fan_main s) d (fan_errs_sent s).
Definition set_errs_sent (h : list error) (s : FanIn) : FanIn :=
  mkFanIn (fan_name s) (fan_group s) (fan_st s) (fan_ctx s) (fan_cap s) (fan_msgc s)
          (fan_errc s) (fan_workers s) (fan_main s) (fan_dispatched s) h.

(** [cancel()] of [context.WithCancel]: a context already done keeps its
    error. *)
Definition cancel (ctx : Context) : Context :=
  match ctx_Err ctx with
  | Some _ => ctx
  | None => mkContext (Some Canceled)
  end.

(** The parent context ends with [e]: so does the derived one, unless it
    is done already. *)
Definition parent_done (e : ctx_error) (ctx : Context) : Context :=
  match ctx_Err ctx with
  | Some _ => ctx
  | None => mkContext (Some e)
  end.

(** [return err] from [SubscribePartitions]: the deferred [cancel] runs. *)
Definition main_return (err : error) (s : FanIn) : FanIn :=
  set_main (MReturned err) (set_ctx (cancel (fan_ctx s)) s).

(** The two cases of the [select] of the caller's loop. *)
Inductive selected := SelMsg | SelErr.

Definition main_select_cases (s : FanIn) : list (bool * selected) :=
  [ (bool_decide (fan_msgc s ≠ []), SelMsg);
    (bool_decide (fan_errc s ≠ []), SelErr) ].

(** One step of the caller's goroutine; [None] when it is blocked or has
    returned. *)
Definition main_step (pick : nat) (s : FanIn) : option FanIn :=
  match fan_main s with
  | MReturned _ => None
  | MRunning (id :: rest) =>
      let '(now, st1) := Now_UnixNano (fan_st s) in
      let '(r, st2) :=
        NewReceiver (partition_link_options (fan_name s) (fan_group s) id now) st1 in
      match r with
      | inr err => Some (main_return err (set_st st2 s))
      | inl recv =>
          Some (set_main (MRunning rest)
                  (set_workers (fan_workers s ++ [mkWorker recv WReceive])
                     (set_st st2 s)))
      end
  | MRunning [] =>
      match go_select (main_select_cases s) pick with
      | None => None
      | Some SelMsg =>
          match fan_msgc s with
          | msg :: q => Some (set_dispatched (fan_dispatched s ++ [msg]) (set_msgc q s))
          | [] => None
          end
      | Some SelErr =>
          match fan_errc s with
          | err :: q => Some (main_return err (set_errc q s))
          | [] => None
          end
      end
  end.

(** One step of the goroutine of the [i]-th receiver; [None] when there
    is none, when it is blocked on a full channel or when it is gone. *)
Definition worker_step (i : nat) (s : FanIn) : option FanIn :=
  match fan_workers s !! i with
  | None => None
  | Some w =>
      let goto pc s := set_workers (<[i := mkWorker (w_recv w) pc]> (fan_workers s)) s in
      match w_pc w with
      | WReceive =>
          let '(r, st1) := Receive (w_recv w) (fan_ctx s) (fan_st s) in
          match r with
          | inr err => Some (goto (WSendErr err) (set_st st1 s))
          | inl msg =>
              let '(_, st2) := Accept msg st1 in
              Some (goto (WSendMsg msg) (set_st st2 s))
          end
      | WSendMsg msg =>
          if decide (length (fan_msgc s) < fan_cap s)
          then Some (goto WReceive (set_msgc (fan_msgc s ++ [msg]) s))
          else None
      | WSendErr err =>
          if decide (length (fan_errc s) < fan_cap s)
          then Some (goto WClose
                       (set_errs_sent (fan_errs_sent s ++ [err])
                          (set_errc (fan_errc s ++ [err]) s)))
          else None
      | WClose =>
          let '(_, st1) := ReceiverClose (w_recv w) (fan_st s) in
          Some (goto WExit (set_st st1 s))
      | WExit => None
      end
  end.

(** What the scheduler can do next: run the caller's goroutine, run a
    partition goroutine, or let the caller's context end. *)
Inductive Action :=
| AMain (pick : nat)
| AWorker (i : nat)
| AParentDone (e : ctx_error).

Definition step (a : Action) (s : FanIn) : option FanIn :=
  match a with
  | AMain pick => main_step pick s
  | AWorker i => worker_step i s
  | AParentDone e => Some (set_ctx (parent_done e (fan_ctx s)) s)
  end.

(** A schedule, run from [s]; an action that cannot run is skipped. *)
Fixpoint run (sched : list Action) (s : FanIn) : FanIn :=
  match sched with
  | [] => s
  | a :: rest => run rest (default s (step a s))
  end.

(** [s] is what some schedule makes of [s0]. *)
Definition fan_reachable (s0 s : FanIn) : Prop := ∃ sched, s = run sched s0.

(** What the trace must show for the clock and the broker to have
    behaved over a call started at [T] (Unix nanoseconds): no clock
    reading before [T], and no message received on a link whose
    selector rejects it. *)
Definition call_ok (T : Z) (c : Call) : Prop :=
  match c with
  | CallNow t => (T ≤ t)%Z
  | CallReceive l (inl m) => link_admits (link_opts l) m = true
  | _ => True
  end.

(** A message was enqueued at or after [T]: its annotation is in
    milliseconds, [T] in nanoseconds. *)
Definition enqueued_from (T : Z) (m : Message) : Prop :=
  (T ≤ EnqueuedTime m * 1000000)%Z.

(** A link lets through only messages enqueued at or after [T]. *)
Definition link_from (T : Z) (l : Link) : Prop :=
  ∀ m, link_admits (link_opts l) m = true → enqueued_from T m.

(** Every receiver is such a link, and so is every message a goroutine
    holds, every message in the channel, every message dispatched. *)
Definition fan_from (T : Z) (s : FanIn) : Prop :=
  Forall (λ w, link_from T (w_recv w)
               ∧ match w_pc w with
                 | WSendMsg m => enqueued_from T m
                 | _ => True
                 end) (fan_workers s)
  ∧ Forall (enqueued_from T) (fan_msgc s)
  ∧ Forall (enqueued_from T) (fan_dispatched s).


(** A partition goroutine that has not sent its error yet. *)
Definition may_send_err (w : Worker) : bool :=
  match w_pc w with
  | WReceive | WSendMsg _ | WSendErr _ => true
  | WClose | WExit => false
  end.

Definition to_open (pc : main_pc) : list string :=
  match pc with
  | MRunning ids => ids
  | MReturned _ => []
  end.

(** [errc] has a slot for every goroutine that may still send on it:
    the errors sent so far, the goroutines that have not sent theirs and
    the receivers still to open never exceed its capacity. *)
Definition fan_room (s : FanIn) : Prop :=
  length (fan_errc s) ≤ length (fan_errs_sent s)
  ∧ length (fan_errs_sent s)
    + length (filter (λ w, may_send_err w = true) (fan_workers s))
    + length (to_open (fan_main s)) ≤ fan_cap s.

(** How the first, sequential part of [SubscribePartitions] ends. *)
Inductive start_result :=
| Started (s : FanIn)
| StartErr (err : error) (st : St)
| StartPanic (msg : string) (st : St).

(** [SubscribePartitions] up to the creation of the channels: the
    partitions are discovered, the context is derived, both channels get
    [len(ids)] slots. *)
Definition fan_start (name group : string) (st : St) (ctx : Context) (ids : list string)
  : FanIn :=
  mkFanIn name group st ctx (length ids) [] [] [] (MRunning ids) [] [].

Definition SubscribePartitions_start (ctx : Context) (name group : string) (st : St)
  : start_result :=
  match getPartitionIDs ctx name st with
  | (Ids ids, st') => Started (fan_start name group st' ctx ids)
  | (IdsErr err, st') => StartErr err st'
  | (IdsPanic msg, st') => StartPanic msg st'
  end.

(** *** Reading the trace *)

(** A line written with [log.Printf]. *)
Definition is_log (c : Call) : bool :=
  match c with CallLogPrintf _ => true | _ => false end.

(** The opening of a sending link, with which every [PutToken] starts. *)
Definition is_put (c : Call) : bool :=
  match c with CallNewSender _ _ => true | _ => false end.

Definition count_calls (p : Call → bool) (l : list Call) : nat :=
  length (filter (λ c, p c = true) l).

(** The ticks the renewal goroutine sees before it is told to stop. *)
Fixpoint ticks_before_stop (wakes : list wake) : nat :=
  match wakes with
  | Tick :: rest => S (ticks_before_stop rest)
  | _ => 0
  end.

(** The receiver of a goroutine was opened for the partition [id]. *)
Definition worker_of (name group id : string) (w : Worker) : Prop :=
  ∃ now, link_opts (w_recv w) = partition_link_options name group id now.

(** The receivers are opened for the partitions, one each, in order:
    [opened] are the partitions that have one. *)
Definition opened_for (name group : string) (ids : list string) (s : FanIn) : Prop :=
  fan_name s = name ∧ fan_group s = group
  ∧ ∃ opened,
      Forall2 (λ w id, worker_of name group id w) (fan_workers s) opened
      ∧ match fan_main s with
        | MRunning rest => ids = opened ++ rest
        | MReturned _ => opened `prefix_of` ids
        end.

(** The trace shows [m] received on a link and accepted. *)
Definition acked (calls : list Call) (m : Message) : Prop :=
  CallAccept m ∈ calls ∧ ∃ l, CallReceive l (inl m) ∈ calls.

(** So it does for every message a goroutine holds, the channel holds
    or the callback got. *)
Definition fan_acked (s : FanIn) : Prop :=
  Forall (λ w, match w_pc w with
               | WSendMsg m => acked (st_calls (fan_st s)) m
               | _ => True
               end) (fan_workers s)
  ∧ Forall (acked (st_calls (fan_st s))) (fan_msgc s)
  ∧ Forall (acked (st_calls (fan_st s))) (fan_dispatched s).

(** A call of [Send]. *)
Definition is_send (c : Call) : bool :=
  match c with CallSend _ _ _ => true | _ => false end.

(** *** Dialling *)

(** [Dial]: connect to [amqps://hostname] and open a session; when the
    session cannot be opened the connection is closed again.  The
    result is the client, or the error with the state left behind. *)
Definition Dial `{Dialer W} (hostname : string) (st : St) : Client + error * St :=
  let '(r, w1) := amqp_Dial ("amqps://" +:+ hostname) (st_world st) in
  match r with
  | Some err => inr (err, mkSt w1 (st_calls st))
  | None =>
      let '(r', w2) := conn_NewSession w1 in
      match r' with
      | Some err =>
          let '(_, st3) := call conn_Close CallConnClose (mkSt w2 (st_calls st)) in
          inr (err, st3)
      | None => inl (mkClient (mkSt w2 (st_calls st)) false)
      end
  end.

(** The [SubscribePartitions] method of [Client]: the package function
    over the client's session. *)
Definition Client_SubscribePartitions (ctx : Context) (name group : string) (c : Client)
  : start_result :=
  SubscribePartitions_start ctx name group (cl_st c).

End Session.
#[global] Arguments St W : clear implicits.
#[global] Arguments M W A : clear implicits.
#[global] Arguments Client W : clear implicits.
#[global] Arguments FanIn W : clear implicits.
#[global] Arguments start_result W : clear implicits.

End eventhub.

(** ** Scripted collaborators

    Small concrete instances of the two interfaces, used to run the
    code on examples. *)
Module script.

(** A device transport that answers [Connect] from a list of results
    (nil once the list is used up) and succeeds everywhere else. *)
Record transport := mkTransport {
  connects : list (option error);
  close_result : option error
}.

#[global] Instance transport_Transport : iotdevice.Transport transport := {|
  iotdevice.tr_Connect _ _ t :=
    match connects t with
    | [] => (None, t)
    | r :: rest => (r, mkTransport rest (close_result t))
    end;
  iotdevice.tr_SubscribeEvents _ t := (None, t);
  iotdevice.tr_RegisterDirectMethods _ t := (None, t);
  iotdevice.tr_RetrieveTwinProperties _ t := (Some [], None, t);
  iotdevice.tr_UpdateTwinProperties _ _ t := (1%Z, None, t);
  iotdevice.tr_SubscribeTwinUpdates _ t := (None, t);
  iotdevice.tr_Send _ _ t := (None, t);
  iotdevice.tr_Close t := (close_result t, t)
|}.

Definition a_device : iotdevice.Credentials := iotdevice.mkCredentials "device-1".

(** The connection string of that device, a reader of connection
    strings that knows only this one, and a transport that ignores the
    logger it is given. *)
Definition a_connection_string : string :=
  "HostName=hub.example;DeviceId=device-1;SharedAccessKey=a2V5".

Definition sas (cs : string) : iotdevice.Credentials + error :=
  if decide (cs = a_connection_string) then inl a_device
  else inr (external "malformed connection string").

Definition set_logger (l : iotdevice.Logger) (t : transport) : transport := t.

(** A client fresh from [New] over a transport whose connects succeed. *)
Definition fresh_client : iotdevice.Client transport :=
  iotdevice.New a_device (mkTransport [] None).

(** The double quote character. *)
Definition dquote : string := String (Ascii.ascii_of_nat 34) EmptyString.

(** An AMQP session that hands out link numbers in order, reads the
    clock from a counter, and answers [Receive] from an inbox: the next
    entry the link admits, a context error when the context is done, a
    detach error when the inbox is empty. *)
Record world := mkWorld {
  wd_uuids : nat;
  wd_clock : Z;
  wd_links : nat;
  wd_inbox : list (eventhub.Message + error);
  wd_sess_close : option error
}.

Fixpoint next_admitted (opts : list eventhub.LinkOption)
    (inbox : list (eventhub.Message + error))
  : (eventhub.Message + error) * list (eventhub.Message + error) :=
  match inbox with
  | [] => (inr (external "link detached"), [])
  | inr e :: rest => (inr e, rest)
  | inl m :: rest =>
      if eventhub.link_admits opts m then (inl m, rest)
      else next_admitted opts rest
  end.

Definition new_link (w : world) : (nat + error) * world :=
  (inl (wd_links w),
   mkWorld (wd_uuids w) (wd_clock w) (S (wd_links w)) (wd_inbox w) (wd_sess_close w)).

#[global] Instance world_Env : eventhub.Env world := {|
  eventhub.uuid_NewV4 w :=
    ("uuid-" +:+ pretty (wd_uuids w),
     mkWorld (S (wd_uuids w)) (wd_clock w) (wd_links w) (wd_inbox w) (wd_sess_close w));
  eventhub.time_Now_UnixNano w :=
    (wd_clock w,
     mkWorld (wd_uuids w) (wd_clock w + 1) (wd_links w) (wd_inbox w) (wd_sess_close w));
  eventhub.fmt_q v :=
    match v with
    | VString s => dquote +:+ s +:+ dquote
    | _ => "%!q(<nil>)"
    end;
  eventhub.sess_NewSender _ w := new_link w;
  eventhub.sess_NewReceiver _ w := new_link w;
  eventhub.sender_Send _ _ _ w := (None, w);
  eventhub.receiver_Receive l ctx w :=
    match ctx_Err ctx with
    | Some e => (inr (context_Err e), w)
    | None =>
        let '(r, rest) := next_admitted (eventhub.link_opts l) (wd_inbox w) in
        (r, mkWorld (wd_uuids w) (wd_clock w) (wd_links w) rest (wd_sess_close w))
    end;
  eventhub.msg_Accept _ w := w;
  eventhub.sender_Close _ w := (None, w);
  eventhub.receiver_Close _ w := (None, w);
  eventhub.sess_Close w := (wd_sess_close w, w);
  eventhub.conn_Close w := (None, w)
|}.

(** A network on which only [amqps://hub.example] answers, and opens a
    session. *)
#[global] Instance world_Dialer : eventhub.Dialer world := {|
  eventhub.amqp_Dial addr w :=
    (if decide (addr = "amqps://hub.example") then None
     else Some (external "no such host"), w);
  eventhub.conn_NewSession w := (None, w)
|}.

(** A response to a request: a status code and description, the
    correlation id it echoes, and a payload. *)
Definition response (code : Z) (description : string) (cid : string) (payload : value)
  : eventhub.Message :=
  eventhub.mkMessage payload
    (Some (eventhub.mkProperties VNil EmptyString EmptyString (VString cid)))
    (<["status-code" := VInt32 code]>
      (<["status-description" := VString description]> ∅))
    0.

(** A response with a status code and a payload but no properties
    section. *)
Definition bare_response (code : Z) (payload : value) : eventhub.Message :=
  eventhub.mkMessage payload None (<["status-code" := VInt32 code]> ∅) 0.

(** A telemetry message enqueued at [ms]. *)
Definition telemetry (body : string) (ms : Z) : eventhub.Message :=
  eventhub.mkMessage (VString body) None ∅ ms.

(** The scenario of two partitions: the first yields [M1] and then an
    error, while a message of the second is still in the channel. *)
Definition M1 : eventhub.Message := telemetry "m1" 1700000000005.
Definition M2 : eventhub.Message := telemetry "m2" 1700000000006.
Definition E : error := external "link detached by peer".

(** A third message, and a schedule after which the first partition's
    goroutine holds it while the channel is full and the caller has
    returned. *)
Definition M3 : eventhub.Message := telemetry "m3" 1700000000007.

Definition stuck_schedule : list eventhub.Action :=
  [ eventhub.AMain 0; eventhub.AMain 0;
    eventhub.AWorker 0; eventhub.AWorker 0;
    eventhub.AWorker 0; eventhub.AWorker 0;
    eventhub.AWorker 0;
    eventhub.AWorker 1; eventhub.AWorker 1;
    eventhub.AMain 1 ].

Definition scenario_schedule : list eventhub.Action :=
  [ eventhub.AMain 0; eventhub.AMain 0;
    eventhub.AWorker 0; eventhub.AWorker 0; eventhub.AMain 0;
    eventhub.AWorker 1; eventhub.AWorker 1;
    eventhub.AWorker 0; eventhub.AWorker 0;
    eventhub.AMain 1 ].

Definition world_with (clock : Z) (inbox : list (eventhub.Message + error)) : world :=
  mkWorld 0 clock 0 inbox None.

Definition st_with (clock : Z) (inbox : list (eventhub.Message + error))
  : eventhub.St world :=
  eventhub.mkSt (world_with clock inbox) [].

End script.

(** The scenario, started at [scenario_T] (Unix nanoseconds) and run. *)
Definition scenario_T : Z := 1700000000000000000.

Definition scenario_start : eventhub.FanIn script.world :=
  eventhub.fan_start "telemetry" "$Default"
    (script.st_with scenario_T [inl script.M1; inl script.M2; inr script.E])
    background ["0"; "1"].

Definition scenario : eventhub.FanIn script.world :=
  eventhub.run script.scenario_schedule scenario_start.

(** The run that leaves a goroutine stuck. *)
Definition stuck_start : eventhub.FanIn script.world :=
  eventhub.fan_start "telemetry" "$Default"
    (script.st_with scenario_T
       [inl script.M1; inl script.M2; inl script.M3; inr script.E])
    background ["0"; "1"].

Definition stuck : eventhub.FanIn script.world :=
  eventhub.run script.stuck_schedule stuck_start.

(** A response with a good status and correlation id whose payload is
    not a map, and a session holding it. *)
Definition st_read_bad_payload : eventhub.St script.world :=
  script.st_with 0 [inl (script.response 200 "OK" "uuid-1" (VString "no map"))].

(** A session whose peer detaches before answering. *)
Definition st_silent : eventhub.St script.world := script.st_with 0 [].

(** An eventhub client whose session refuses to close. *)
Definition busy : error := external "session busy".

Definition stubborn_client : eventhub.Client script.world :=
  eventhub.mkClient
    (eventhub.mkSt (script.mkWorld 0 0 0 [] (Some busy)) []) false.

(** A device client whose first connect is refused. *)
Definition refused : error := external "connection refused".

Definition refused_client : iotdevice.Client script.transport :=
  iotdevice.New script.a_device (script.mkTransport [Some refused] None).

(** A device client that is connected. *)
Definition connected_client : iotdevice.Client script.transport :=
  (iotdevice.Connect background script.fresh_client).2.

(** A device client that was connected and then closed. *)
Definition closed_client : iotdevice.Client script.transport :=
  (iotdevice.Close connected_client).2.

(** Options for [New]: a transport, a logger and the device's
    connection string; and the same without the transport. *)
Definition no_transport_options : list (iotdevice.ClientOption script.transport) :=
  [ iotdevice.WithLogger 7;
    iotdevice.WithConnectionString script.sas script.a_connection_string ].

Definition device_options : list (iotdevice.ClientOption script.transport) :=
  match iotdevice.WithTransport (Some (script.mkTransport [] None)) with
  | inr opt => opt :: no_transport_options
  | inl _ => []
  end.

(** Stand-ins for [encoding/json] on twin documents. *)
Definition no_twin (b : bytes) : (option (gmap string value) * option (gmap string value)) + error :=
  inl (None, None).

Definition marshal_empty (s : gmap string value) : bytes * option error :=
  (Some [], None).

(** The [float64] 3.0, as JSON decoding yields it, and a twin at that
    version. *)
Definition three : spec_float := S754_finite false 6755399441055744 (-51).

Definition twin_v3 : gmap string value :=
  <["$version" := VFloat64 three]> (<["temp" := VFloat64 (S754_zero false)]> ∅).

(** What an amd64 build leaves in the register when the conversion is
    out of range. *)
Definition amd64_impl (f : spec_float) : Z := (- 2 ^ 63)%Z.

(** Sessions whose inbox holds one response to a token put, and one
    holding a good response followed by a refusal. *)
Definition st_put_ok : eventhub.St script.world :=
  script.st_with 0 [inl (script.response 200 "OK" "x" VNil)].

Definition st_put_404 : eventhub.St script.world :=
  script.st_with 0 [inl (script.response 404 "Not Found" "x" VNil)].

Definition st_put_ok_then_404 : eventhub.St script.world :=
  script.st_with 0 [inl (script.response 200 "OK" "x" VNil);
                    inl (script.response 404 "Not Found" "x" VNil)].

(** The receiving link of [PutToken] in those sessions. *)
Definition cbs_receiver : eventhub.Link :=
  eventhub.mkLink 1 [eventhub.LinkSourceAddress "$cbs"].

(** Sessions whose inbox holds one response to a partition read: a good
    one, and one without a properties section. *)
Definition partitions_payload : value :=
  VMap (<["partition_ids" := VStrings ["0"; "1"]]> ∅).

Definition st_read_ok : eventhub.St script.world :=
  script.st_with 0 [inl (script.response 200 "OK" "uuid-1" partitions_payload)].

Definition st_read_bare : eventhub.St script.world :=
  script.st_with 0 [inl (script.bare_response 200 partitions_payload)].

(** * Proof automation *)

(** Case analysis on the innermost call result the goal branches on. *)
Ltac split_run :=
  match goal with
  | |- context [match ?e with _ => _ end] =>
      lazymatch e with
      | context [match _ with _ => _ end] => fail
      | _ => destruct e eqn:?; simpl
      end
  end.

Ltac in_new_calls :=
  rewrite <- ?app_assoc, ?drop_app_length; simpl;
  rewrite ?elem_of_cons, ?elem_of_nil; intuition congruence.

(** Bring the new part of a trace into view, for membership goals. *)
Ltac trace_goal :=
  rewrite <- ?app_assoc, ?drop_app_length; simpl;
  rewrite ?elem_of_cons, ?elem_of_nil.

(** Unfold the session monad down to the calls of the environment. *)
Ltac unfold_session :=
  unfold eventhub.new_calls, eventhub.PutToken, eventhub.getPartitionIDs,
    eventhub.NewSender, eventhub.NewReceiver, eventhub.NewV4, eventhub.Send,
    eventhub.Receive, eventhub.Accept, eventhub.SenderClose, eventhub.ReceiverClose,
    eventhub.defer, eventhub.call, eventhub.bind, eventhub.ret; simpl.

(** * Theorems *)

(** ** The select statement *)
Section select.
Context {A : Type}.

Lemma go_select_ready (cases : list (bool * A)) (pick : nat) (a : A) :
  go_select cases pick = Some a → a ∈ ready_cases cases.
Proof. unfold go_select. intros Hl. by eapply list_elem_of_lookup_2. Qed.

Lemma go_select_may (cases : list (bool * A)) (a : A) :
  a ∈ ready_cases cases → ∃ pick, go_select cases pick = Some a.
Proof.
  intros [i Hi]%list_elem_of_lookup. exists i. unfold go_select.
  rewrite Nat.mod_small; [done|]. by eapply lookup_lt_Some.
Qed.

Lemma go_select_single (cases : list (bool * A)) (a : A) (pick : nat) :
  ready_cases cases = [a] → go_select cases pick = Some a.
Proof.
  unfold go_select. intros ->. change (length [a]) with 1.
  by rewrite Nat.mod_1_r.
Qed.

Lemma go_select_blocked (cases : list (bool * A)) (pick : nat) :
  ready_cases cases = [] → go_select cases pick = None.
Proof. unfold go_select. by intros ->. Qed.

(** A [select] with a ready case does not block. *)
Lemma go_select_enabled (cases : list (bool * A)) (pick : nat) :
  ready_cases cases ≠ [] → is_Some (go_select cases pick).
Proof.
  intros Hne. unfold go_select. apply lookup_lt_is_Some.
  apply Nat.mod_upper_bound. by destruct (ready_cases cases).
Qed.

End select.

(** ** iotdevice: connection lifecycle *)
Section iotdevice_lifecycle.
Import iotdevice.
Context {T : Type} `{Transport T}.

Lemma Connect_when_ready (ctx : Context) (c : Client T) :
  ready c = true → Connect ctx c = (Some (errors_New "already connected"), c).
Proof. unfold Connect. by intros ->. Qed.

Lemma Connect_failure (ctx : Context) (c : Client T) (e : error) (t' : T) :
  ready c = false →
  tr_Connect ctx (creds c) (tr c) = (Some e, t') →
  Connect ctx c = (Some e, record CallConnect (set_tr t' c)).
Proof. unfold Connect. by intros -> ->. Qed.

Lemma Connect_success (ctx : Context) (c : Client T) (t' : T) :
  ready c = false →
  tr_Connect ctx (creds c) (tr c) = (None, t') →
  Connect ctx c = (None, set_ready true (record CallConnect (set_tr t' c))).
Proof. unfold Connect. by intros -> ->. Qed.

(** C3. [Connect] is single-shot: on a client that is already ready it
    fails with the already-connected error and changes nothing; when the
    transport's connect fails it returns that error and leaves the client
    unready (one more transport call in the trace, nothing else changed),
    so that a later [Connect] goes to the transport again and, when that
    succeeds, makes the client ready. *)
Theorem Connect_single_shot (ctx : Context) (c : Client T) :
  (ready c = true → Connect ctx c = (Some (errors_New "already connected"), c))
  ∧ (∀ e t', ready c = false → tr_Connect ctx (creds c) (tr c) = (Some e, t') →
       ∃ c', Connect ctx c = (Some e, c')
         ∧ ready c' = false ∧ done c' = done c ∧ tr c' = t'
         ∧ calls c' = calls c ++ [CallConnect]
         ∧ ∀ ctx2 t'', tr_Connect ctx2 (creds c) t' = (None, t'') →
             ∃ c'', Connect ctx2 c' = (None, c'') ∧ ready c'' = true
               ∧ calls c'' = calls c ++ [CallConnect; CallConnect]).
Proof.
  split; [apply Connect_when_ready|].
  intros e t' Hr Ht. eexists. split; [by apply Connect_failure|].
  repeat split; [done..|].
  intros ctx2 t'' Ht2. eexists. split.
  - apply Connect_success; [done|]. exact Ht2.
  - split; [done|]. simpl. by rewrite <- app_assoc.
Qed.

Lemma Close_when_closed (c : Client T) : done c = true → Close c = (None, c).
Proof. unfold Close. by intros ->. Qed.

Lemma Close_closes (c : Client T) : done (Close c).2 = true.
Proof. unfold Close. destruct (done c) eqn:E; [done|]. by destruct (tr_Close _). Qed.

Lemma Close_n_when_closed (n : nat) (c : Client T) :
  done c = true → Close_n n c = (replicate n None, c).
Proof.
  intros Hd. induction n as [|n IH]; [done|].
  simpl. rewrite (Close_when_closed c Hd), IH. done.
Qed.

Lemma Close_n_first (n : nat) (c : Client T) :
  Close_n (S n) c = ((Close c).1 :: replicate n None, (Close c).2).
Proof.
  simpl. destruct (Close c) as [r c'] eqn:E.
  rewrite Close_n_when_closed; [done|].
  change c' with ((r, c').2). rewrite <- E. apply Close_closes.
Qed.

Lemma Close_calls (c : Client T) :
  calls (Close c).2 =
  calls c ++ (if done c then []
              else [CallEvMuxClose ErrClosed; CallTsMuxClose ErrClosed; CallTrClose]).
Proof.
  unfold Close. destruct (done c); [by rewrite app_nil_r|].
  destruct (tr_Close _). simpl. by rewrite <- !app_assoc.
Qed.

End iotdevice_lifecycle.

(** ** iotdevice: the readiness wait and the data-plane operations *)
Section iotdevice_data_plane.
Import iotdevice.
Context {T : Type} `{Transport T}.
Variable int_width : int_size.
Variable int_impl : spec_float → Z.
Variable json_Unmarshal_twin : bytes → (option (gmap string value) * option (gmap string value)) + error.
Variable json_Marshal : gmap string value → bytes * option error.

(** The wait of a client that is ready, open, under a live context:
    it proceeds, whatever the scheduler picks. *)
Lemma checkConnection_ready (pick : nat) (ctx : Context) (c : Client T) :
  ready c = true → done c = false → ctx_Err ctx = None →
  checkConnection pick ctx c = Some None.
Proof.
  intros Hr Hd Hc. apply go_select_single.
  unfold checkConnection_cases, ready_cases, ctx_Done. rewrite Hr, Hd, Hc. done.
Qed.

(** Closed before it ever became ready, under a live context: [ErrClosed]. *)
Lemma checkConnection_closed_unready (pick : nat) (ctx : Context) (c : Client T) :
  ready c = false → done c = true → ctx_Err ctx = None →
  checkConnection pick ctx c = Some (Some ErrClosed).
Proof.
  intros Hr Hd Hc. apply go_select_single.
  unfold checkConnection_cases, ready_cases, ctx_Done. rewrite Hr, Hd, Hc. done.
Qed.

(** Neither ready nor closed when the context ends: the context's error. *)
Lemma checkConnection_cancelled_unready (pick : nat) (ctx : Context) (c : Client T)
    (e : ctx_error) :
  ready c = false → done c = false → ctx_Err ctx = Some e →
  checkConnection pick ctx c = Some (Some (context_Err e)).
Proof.
  intros Hr Hd Hc. apply go_select_single.
  unfold checkConnection_cases, ready_cases, ctx_Done. rewrite Hr, Hd, Hc. done.
Qed.

(** Nothing to wait on: the caller stays blocked. *)
Lemma checkConnection_blocked (pick : nat) (ctx : Context) (c : Client T) :
  ready c = false → done c = false → ctx_Err ctx = None →
  checkConnection pick ctx c = None.
Proof.
  intros Hr Hd Hc. apply go_select_blocked.
  unfold checkConnection_cases, ready_cases, ctx_Done. rewrite Hr, Hd, Hc. done.
Qed.

(** Ready and closed: both cases can proceed, and the scheduler may take
    either. *)
Lemma checkConnection_ready_and_closed (ctx : Context) (c : Client T) :
  ready c = true → done c = true →
  checkConnection 0 ctx c = Some None
  ∧ checkConnection 1 ctx c = Some (Some ErrClosed).
Proof.
  intros Hr Hd. unfold checkConnection, checkConnection_cases, go_select, ready_cases.
  rewrite Hr, Hd. destruct (ctx_Done ctx); done.
Qed.

(** Every data-plane operation returns the error of the wait, and
    touches nothing. *)
Lemma data_plane_gate (pick : nat) (ctx : Context) (c : Client T) (err : error) :
  checkConnection pick ctx c = Some (Some err) →
  (∀ payload opts, SendEvent pick ctx payload opts c = Ret (Some err, c))
  ∧ SubscribeEvents pick ctx c = Ret (None, Some err, c)
  ∧ (∀ name fn, RegisterMethod pick ctx name fn c = Ret (Some err, c))
  ∧ RetrieveTwinState json_Unmarshal_twin pick ctx c = Ret (None, None, Some err, c)
  ∧ (∀ s, UpdateTwinState json_Marshal pick ctx s c = Ret (0%Z, Some err, c))
  ∧ SubscribeTwinUpdates pick ctx c = Ret (None, Some err, c).
Proof.
  intros Hc.
  unfold SendEvent, SubscribeEvents, RegisterMethod, RetrieveTwinState,
    UpdateTwinState, SubscribeTwinUpdates.
  rewrite Hc. done.
Qed.

(** [apply_opts] over no option leaves the message as built. *)
Lemma apply_opts_nil (msg : Message) : apply_opts [] msg = inr msg.
Proof. done. Qed.

(** The options of the package never fail. *)
Lemma apply_opts_builtin (msg : Message) (mid cid k v : string) (qos : Z) :
  ∃ msg', apply_opts [WithSendMessageID mid; WithSendCorrelationID cid;
                      WithSendProperty k v; WithSendQoS qos] msg = inr msg'
          ∧ Payload msg' = Payload msg ∧ MessageID msg' = mid ∧ CorrelationID msg' = cid.
Proof. eexists. split; [reflexivity|]. done. Qed.

(** With a nil payload [SendEvent] never reaches the transport: it
    blocks, or returns an error and leaves the client as it was. *)
Lemma SendEvent_nil_payload (pick : nat) (ctx : Context) (opts : list SendOption)
    (c : Client T) :
  SendEvent pick ctx None opts c = Blocked
  ∨ ∃ err, SendEvent pick ctx None opts c = Ret (Some err, c).
Proof.
  unfold SendEvent. destruct (checkConnection pick ctx c) as [[err|]|]; eauto.
Qed.

(** C9, as amended. [SendEvent] on a client that is ready, not closed,
    under a live context: a nil payload is refused with an error and the
    transport is not called; a non-nil payload, empty or not, has the
    options applied in order: the first option that fails ends the call
    with its error and without a transport call, otherwise the message is
    handed to the transport once and the transport's result is the
    result of the call. *)
Theorem SendEvent_payload (pick : nat) (ctx : Context) (opts : list SendOption)
    (c : Client T) :
  ready c = true → done c = false → ctx_Err ctx = None →
  SendEvent pick ctx None opts c = Ret (Some (errors_New "payload is nil"), c)
  ∧ ∀ p : list Byte.byte,
      match apply_opts opts (mkMessage (Some p) EmptyString EmptyString None None) with
      | inl err => SendEvent pick ctx (Some p) opts c = Ret (Some err, c)
      | inr msg =>
          ∃ c', SendEvent pick ctx (Some p) opts c = Ret ((tr_Send ctx msg (tr c)).1, c')
            ∧ tr c' = (tr_Send ctx msg (tr c)).2
            ∧ calls c' = calls c ++ CallSend msg ::
                match (tr_Send ctx msg (tr c)).1 with
                | None => [CallDebugf msg]
                | Some _ => []
                end
      end.
Proof.
  intros Hr Hd Hc. unfold SendEvent.
  rewrite (checkConnection_ready pick ctx c Hr Hd Hc). split; [done|].
  intros p. destruct (apply_opts _ _) as [err|msg]; [done|].
  destruct (tr_Send ctx msg (tr c)) as [[e|] t']; eexists; split; try done.
  - split; [done|]. simpl. by rewrite <- app_assoc.
Qed.

(** The zero value converts to zero at either width. *)
Lemma int_of_float64_zero : int_of_float64 int_width int_impl (S754_zero false) = 0%Z.
Proof. unfold int_of_float64. by destruct int_width. Qed.

(** Truncation leaves a float that is an integer as it is. *)
Lemma float64_trunc_integer (f : spec_float) (n : Z) :
  float64_is_Z f n → float64_trunc f = Some n.
Proof.
  destruct f as [s| | |s m e]; simpl; try done.
  - by intros ->.
  - intros (k & -> & Hk). destruct (Z.leb_spec 0 e).
    + by rewrite Hk.
    + rewrite Hk, Z.div_mul; [done|]. apply Z.pow_nonzero; lia.
Qed.

(** When [int] holds the integer a float is, that is the conversion. *)
Lemma int_of_float64_integer (f : spec_float) (n : Z) :
  float64_is_Z f n → fits_int int_width n = true →
  int_of_float64 int_width int_impl f = n.
Proof.
  intros Hf Hfit. unfold int_of_float64.
  by rewrite (float64_trunc_integer f n Hf), Hfit.
Qed.

(** C10. [Version] is total: it is the conversion to [int] of the number
    under ["$version"], and 0 when the key is absent or holds a value
    that is not a [float64] (the type of every JSON number).  For a
    number that is an integer [int] can hold, the result is that
    integer. *)
Theorem Version_total (s : gmap string value) :
  Version int_width int_impl s
  = match s !! "$version" with
    | Some (VFloat64 f) => int_of_float64 int_width int_impl f
    | _ => 0%Z
    end
  ∧ (s !! "$version" = None → Version int_width int_impl s = 0%Z)
  ∧ (∀ v, s !! "$version" = Some v → (∀ f, v ≠ VFloat64 f) →
       Version int_width int_impl s = 0%Z)
  ∧ (∀ f n, s !! "$version" = Some (VFloat64 f) →
       float64_is_Z f n → fits_int int_width n = true →
       Version int_width int_impl s = n).
Proof.
  unfold Version. repeat split.
  - destruct (s !! "$version") as [[]|]; auto using int_of_float64_zero.
  - intros ->. apply int_of_float64_zero.
  - intros v -> Hv. destruct v; try apply int_of_float64_zero. by destruct (Hv f).
  - intros f n -> Hf Hfit. by apply int_of_float64_integer.
Qed.

End iotdevice_data_plane.


(** ** Strings *)
Lemma append_nil_r (s : string) : s +:+ "" = s.
Proof.
  induction s as [|a s IH]; [done|].
  change (String a s +:+ "") with (String a (s +:+ "")). by rewrite IH.
Qed.

Lemma append_assoc (s1 s2 s3 : string) : (s1 +:+ s2) +:+ s3 = s1 +:+ s2 +:+ s3.
Proof.
  induction s1 as [|a s1 IH]; [done|].
  change (String a (s1 +:+ s2) +:+ s3 = String a (s1 +:+ s2 +:+ s3)).
  change (String a ((s1 +:+ s2) +:+ s3) = String a (s1 +:+ s2 +:+ s3)).
  by rewrite IH.
Qed.

Lemma Contains_middle (pre sub post : string) : Contains (pre +:+ sub +:+ post) sub.
Proof. by exists pre, post. Qed.

Lemma Contains_end (pre sub : string) : Contains (pre +:+ sub) sub.
Proof. exists pre, "". by rewrite append_nil_r. Qed.

(** ** eventhub: token put and partition discovery *)
Section eventhub_sequential.
Import eventhub.
Context {W : Type} `{Env W}.

Lemma CheckMessageResponse_200 (msg : Message) :
  ApplicationProperties msg !! "status-code" = Some (VInt32 200) →
  CheckMessageResponse msg = None.
Proof. unfold CheckMessageResponse. by intros ->. Qed.

Lemma CheckMessageResponse_not_200 (msg : Message) (rc : Z) :
  ApplicationProperties msg !! "status-code" = Some (VInt32 rc) → rc ≠ 200%Z →
  CheckMessageResponse msg =
    Some (errors_New ("code = " +:+ pretty rc +:+ ", description = " +:+
            fmt_q (default VNil (ApplicationProperties msg !! "status-description")))).
Proof. unfold CheckMessageResponse. intros -> Hrc. by rewrite decide_False. Qed.

Lemma CheckMessageResponse_untyped (msg : Message) :
  (∀ rc, ApplicationProperties msg !! "status-code" ≠ Some (VInt32 rc)) →
  CheckMessageResponse msg = Some (errors_New "unable to typecast status-code").
Proof.
  unfold CheckMessageResponse. intros Hno.
  destruct (ApplicationProperties msg !! "status-code") as [[]|]; try done.
  by edestruct Hno.
Qed.

Lemma CheckMessageResponse_ok (msg : Message) :
  CheckMessageResponse msg = None →
  ApplicationProperties msg !! "status-code" = Some (VInt32 200).
Proof.
  unfold CheckMessageResponse.
  destruct (ApplicationProperties msg !! "status-code") as [[]|]; try done.
  case_decide; [by subst|done].
Qed.

(** The result of [PutToken] is the check of the response it received. *)
Lemma PutToken_received (ctx : Context) (audience token : string) (st : St W)
    (l : Link) (msg : Message) :
  CallReceive l (inl msg) ∈ new_calls st (PutToken ctx audience token st).2 →
  (PutToken ctx audience token st).1 = CheckMessageResponse msg.
Proof.
  unfold_session. repeat split_run. all: in_new_calls.
Qed.

(** C6. When the run of [PutToken] received a response: with status
    code 200 (an [int32], as the code asserts) it returns nil; with
    another status code it returns an error whose text is built from the
    code and the description, so it contains the code in decimal and the
    description as the [%q] verb prints it. *)
Theorem PutToken_status (ctx : Context) (audience token : string) (st : St W)
    (l : Link) (msg : Message) :
  CallReceive l (inl msg) ∈ new_calls st (PutToken ctx audience token st).2 →
  (ApplicationProperties msg !! "status-code" = Some (VInt32 200) →
     (PutToken ctx audience token st).1 = None)
  ∧ (∀ rc, ApplicationProperties msg !! "status-code" = Some (VInt32 rc) → rc ≠ 200%Z →
       ∃ e, (PutToken ctx audience token st).1 = Some e
         ∧ Error e = "code = " +:+ pretty rc +:+ ", description = " +:+
                     fmt_q (default VNil (ApplicationProperties msg !! "status-description"))
         ∧ Contains (Error e) (pretty rc)
         ∧ Contains (Error e)
             (fmt_q (default VNil (ApplicationProperties msg !! "status-description")))).
Proof.
  intros Hrecv. rewrite (PutToken_received _ _ _ _ _ _ Hrecv). split.
  - apply CheckMessageResponse_200.
  - intros rc Hrc Hne. eexists. split; [by apply CheckMessageResponse_not_200|].
    simpl. split; [done|]. split; [apply Contains_middle|].
    rewrite <- !append_assoc. apply Contains_end.
Qed.

(** Without a response received, [PutToken] fails. *)
Lemma PutToken_no_response (ctx : Context) (audience token : string) (st : St W) :
  (∀ l msg, CallReceive l (inl msg) ∉ new_calls st (PutToken ctx audience token st).2) →
  is_Some (PutToken ctx audience token st).1.
Proof.
  unfold_session. repeat split_run.
  all: rewrite <- ?app_assoc, ?drop_app_length; simpl; intros Hno; try done.
  all: exfalso; eapply Hno; rewrite ?elem_of_cons; eauto 10.
Qed.

Lemma PutTokenContinuously_first (ctx : Context) (audience token : string) (st : St W) :
  (PutTokenContinuously ctx audience token st).1.1 = (PutToken ctx audience token st).1
  ∧ (PutTokenContinuously ctx audience token st).2 = (PutToken ctx audience token st).2
  ∧ (PutTokenContinuously ctx audience token st).1.2
    = match (PutToken ctx audience token st).1 with
      | None => Some (renewal_loop ctx audience token)
      | Some _ => None
      end.
Proof.
  unfold PutTokenContinuously, bind, ret.
  destruct (PutToken ctx audience token st) as [[e|] st']; done.
Qed.

Lemma renewal_loop_failure (ctx : Context) (audience token : string) (st st' : St W)
    (e : error) (rest : list wake) :
  PutToken ctx audience token st = (Some e, st') →
  renewal_loop ctx audience token (Tick :: rest) st
  = (Exited, mkSt (st_world st')
               (st_calls st' ++ [CallLogPrintf ("put token error: " +:+ Error e)])).
Proof. simpl. unfold bind. by intros ->. Qed.

Lemma renewal_loop_success (ctx : Context) (audience token : string) (st st' : St W)
    (rest : list wake) :
  PutToken ctx audience token st = (None, st') →
  renewal_loop ctx audience token (Tick :: rest) st
  = renewal_loop ctx audience token rest st'.
Proof. simpl. unfold bind. by intros ->. Qed.

Lemma renewal_loop_stop (ctx : Context) (audience token : string) (st : St W)
    (rest : list wake) :
  renewal_loop ctx audience token (Stop :: rest) st = (Exited, st).
Proof. done. Qed.

(** C7. [PutTokenContinuously] does one blocking [PutToken]: its result
    and its effects are those of that put, so it returns an error exactly
    when the first put fails; the renewal goroutine exists exactly when
    the first put succeeded; whatever the goroutine later meets, the
    result the caller got is the first put's; and a renewal that fails
    leaves one log line and ends the goroutine, with no further put. *)
Theorem PutTokenContinuously_first_put_decides (ctx : Context) (audience token : string)
    (st : St W) (wakes : list wake) :
  (PutTokenContinuously ctx audience token st).1.1 = (PutToken ctx audience token st).1
  ∧ (PutTokenContinuously ctx audience token st).2 = (PutToken ctx audience token st).2
  ∧ (is_Some (PutTokenContinuously ctx audience token st).1.2
     ↔ (PutToken ctx audience token st).1 = None)
  ∧ (PutTokenContinuously_then ctx audience token wakes st).1.1
    = (PutToken ctx audience token st).1
  ∧ ∀ st1 st2 e rest, PutToken ctx audience token st1 = (Some e, st2) →
      renewal_loop ctx audience token (Tick :: rest) st1
      = (Exited, mkSt (st_world st2)
                   (st_calls st2 ++ [CallLogPrintf ("put token error: " +:+ Error e)])).
Proof.
  destruct (PutTokenContinuously_first ctx audience token st) as (Hr & Hs & Hg).
  repeat split; try done.
  - rewrite Hg. destruct (PutToken ctx audience token st).1; [by intros []|done].
  - rewrite Hg. by intros ->.
  - unfold PutTokenContinuously_then, bind, ret.
    destruct (PutTokenContinuously ctx audience token st) as [[r [g|]] st'] eqn:E;
      simpl in *; [|done].
    by destruct (g wakes st').
  - intros st1 st2 e rest. apply renewal_loop_failure.
Qed.

Lemma read_response_status (msgID : string) (msg : Message) (rc : Z) :
  ApplicationProperties msg !! "status-code" = Some (VInt32 rc) → rc ≠ 200%Z →
  read_response msgID msg
  = (IdsErr (errors_New ("code = " +:+ pretty rc +:+ ", description = " +:+
       fmt_q (default VNil (ApplicationProperties msg !! "status-description")))), false).
Proof.
  intros Hrc Hne. unfold read_response.
  by rewrite (CheckMessageResponse_not_200 msg rc Hrc Hne).
Qed.

Lemma read_response_mismatch (msgID : string) (msg : Message) (p : MessageProperties) :
  ApplicationProperties msg !! "status-code" = Some (VInt32 200) →
  Properties msg = Some p → CorrelationID p ≠ VString msgID →
  read_response msgID msg = (IdsErr (errors_New "message-id mismatch"), false).
Proof.
  intros Hrc Hp Hne. unfold read_response.
  rewrite (CheckMessageResponse_200 msg Hrc), Hp.
  destruct (CorrelationID p); try done.
  rewrite bool_decide_false; [done|congruence].
Qed.

Lemma read_response_nil_properties (msgID : string) (msg : Message) :
  ApplicationProperties msg !! "status-code" = Some (VInt32 200) →
  Properties msg = None →
  read_response msgID msg
  = (IdsPanic "invalid memory address or nil pointer dereference", false).
Proof.
  intros Hrc Hp. unfold read_response.
  by rewrite (CheckMessageResponse_200 msg Hrc), Hp.
Qed.

Lemma read_response_ids (msgID : string) (msg : Message) (ids : list string) (b : bool) :
  read_response msgID msg = (Ids ids, b) →
  ApplicationProperties msg !! "status-code" = Some (VInt32 200)
  ∧ ∃ p val, Properties msg = Some p ∧ CorrelationID p = VString msgID
      ∧ Value msg = VMap val ∧ val !! "partition_ids" = Some (VStrings ids).
Proof.
  unfold read_response.
  destruct (CheckMessageResponse msg) eqn:Hc; [done|].
  apply CheckMessageResponse_ok in Hc.
  destruct (Properties msg) as [p|]; [|done].
  destruct (CorrelationID p) eqn:Hcid; try done.
  case_bool_decide; [subst|done].
  destruct (Value msg) eqn:Hv; try done.
  destruct (m !! "partition_ids") as [[]|] eqn:Hids; try done.
  intros [= -> _]. eauto 10.
Qed.

(** The result of [getPartitionIDs] is the check of the response it
    received against the message id of the request it sent. *)
Lemma getPartitionIDs_received (ctx : Context) (name : string) (st : St W)
    (l : Link) (msg : Message) :
  CallReceive l (inl msg) ∈ new_calls st (getPartitionIDs ctx name st).2 →
  ∃ send msgID replyTo,
    CallSend send (read_request name msgID replyTo) None
      ∈ new_calls st (getPartitionIDs ctx name st).2
    ∧ (getPartitionIDs ctx name st).1 = (read_response msgID msg).1.
Proof.
  unfold_session. repeat split_run.
  all: rewrite <- ?app_assoc, ?drop_app_length; simpl.
  all: rewrite ?elem_of_cons, ?elem_of_nil; intros Hin.
  all: try (exfalso; intuition congruence).
  all: do 3 eexists; split; [rewrite ?elem_of_cons; eauto 10|].
  all: intuition (simplify_eq; simpl; try done).
  all: match goal with E : read_response _ _ = _ |- _ => by rewrite E end.
Qed.

End eventhub_sequential.



(** ** eventhub: the partition fan-in *)
Section eventhub_fan_in.
Import eventhub.
Context {W : Type} `{Env W}.







(** A step only adds to the trace. *)
Lemma step_calls (a : Action) (s s' : FanIn W) :
  step a s = Some s' → st_calls (fan_st s) `prefix_of` st_calls (fan_st s').
Proof.
  destruct a as [pick|i|e]; simpl.
  - unfold main_step. destruct (fan_main s) as [[|id rest]|]; [| |done].
    + destruct (go_select _ _) as [[]|]; [| |done].
      * destruct (fan_msgc s); [done|]. by intros [= <-].
      * destruct (fan_errc s); [done|]. by intros [= <-].
    + unfold Now_UnixNano, NewReceiver, call, bind, ret. simpl.
      repeat split_run; intros [= <-]; simpl;
        rewrite <- app_assoc; by apply prefix_app_r.
  - unfold worker_step. destruct (fan_workers s !! i) as [w|]; [|done].
    unfold Receive, Accept, ReceiverClose, call.
    destruct (w_pc w); simpl; repeat split_run; intros [= <-]; simpl;
      rewrite <- ?app_assoc; try done; by apply prefix_app_r.
  - by intros [= <-].
Qed.

Lemma run_calls (sched : list Action) (s : FanIn W) :
  st_calls (fan_st s) `prefix_of` st_calls (fan_st (run sched s)).
Proof.
  revert s. induction sched as [|a sched IH]; intros s; [done|].
  simpl. destruct (step a s) as [s'|] eqn:Hs; simpl; [|apply IH].
  etrans; [by eapply step_calls|apply IH].
Qed.










(** The bound of a partition's selector is not before the clock reading
    it was computed from. *)
Lemma partition_link_from (T : Z) (name group id : string) (now : Z) (n : nat) :
  (T ≤ now)%Z → link_from T (mkLink n (partition_link_options name group id now)).
Proof.
  intros HT m. unfold link_admits, partition_link_options, enqueued_from. simpl.
  rewrite andb_true_r. intros Hlt%Z.ltb_lt.
  pose proof (Z.quot_rem' now 1000000) as Hq.
  pose proof (Z.rem_bound_abs now 1000000 ltac:(lia)) as Hr. lia.
Qed.


Lemma Forall_prefix {A} (P : A → Prop) (l1 l2 : list A) :
  l1 `prefix_of` l2 → Forall P l2 → Forall P l1.
Proof. intros [k ->] Hall. by apply Forall_app in Hall as [? _]. Qed.

(** While the trace shows the clock and the broker behaving, a step
    keeps every receiver and every message at or after [T]. *)
Lemma step_from (T : Z) (a : Action) (s s' : FanIn W) :
  fan_from T s → step a s = Some s' →
  Forall (call_ok T) (st_calls (fan_st s')) → fan_from T s'.
Proof.
  intros (Hw & Hq & Hd). destruct a as [pick|i|e]; simpl.
  - unfold main_step. destruct (fan_main s) as [[|id rest]|]; [| |done].
    + destruct (go_select _ _) as [[]|]; [| |done].
      * destruct (fan_msgc s) as [|msg q] eqn:Hmsgc; [done|]. intros [= <-] _.
        apply Forall_cons in Hq as [Hmsg Hq].
        split; [done|]. split; [done|]. simpl. apply Forall_app. by split; [|repeat constructor].
      * destruct (fan_errc s); [done|]. by intros [= <-] _.
    + unfold Now_UnixNano, NewReceiver, call, bind, ret. simpl.
      repeat split_run; intros [= <-]; simpl; simplify_eq; intros Hcalls; [|done].
      split; [|done]. simpl. apply Forall_app. split; [done|].
      repeat constructor.
      apply partition_link_from.
      apply Forall_app in Hcalls as [Hcalls _].
      apply Forall_app in Hcalls as [_ Hnow].
      apply Forall_cons in Hnow as [Hnow _]. exact Hnow.
  - unfold worker_step. destruct (fan_workers s !! i) as [w|] eqn:Hi; [|done].
    pose proof (Forall_lookup_1 _ _ _ _ Hw Hi) as [Hlink Hpc].
    unfold Receive, Accept, ReceiverClose, call.
    destruct (w_pc w) eqn:Hwpc; simpl; repeat split_run; intros [= <-]; simpl;
      simplify_eq; intros Hcalls.
    + split; [|done]. simpl. apply Forall_insert; [done|]. split; [done|]. simpl.
      apply Hlink.
      apply Forall_app in Hcalls as [Hcalls _].
      apply Forall_app in Hcalls as [_ Hrecv].
      apply Forall_cons in Hrecv as [Hrecv _]. exact Hrecv.
    + split; [|done]. simpl. by apply Forall_insert.
    + split; [simpl; by apply Forall_insert|]. split; [|done]. simpl.
      apply Forall_app. by split; [|repeat constructor].
    + split; [|done]. simpl. by apply Forall_insert.
    + split; [|done]. simpl. by apply Forall_insert.
  - intros [= <-] _. done.
Qed.

Lemma run_from (T : Z) (sched : list Action) (s : FanIn W) :
  fan_from T s →
  Forall (call_ok T) (st_calls (fan_st (run sched s))) →
  fan_from T (run sched s).
Proof.
  revert s. induction sched as [|a sched IH]; intros s Hs Hcalls; [done|].
  simpl in *. destruct (step a s) as [s'|] eqn:Hstep; simpl in *; [|by apply IH].
  apply IH; [|done]. eapply step_from; [done..|].
  eapply Forall_prefix; [apply run_calls|done].
Qed.

Lemma fan_start_from (T : Z) (name group : string) (st : St W) (ctx : Context)
    (ids : list string) :
  fan_from T (fan_start name group st ctx ids).
Proof. by repeat split. Qed.

Lemma filter_insert_length {A} (p : A → bool) (l : list A) (i : nat) (x y : A) :
  l !! i = Some x →
  length (filter (λ a, p a = true) (<[i:=y]> l)) + (if p x then 1 else 0)
  = length (filter (λ a, p a = true) l) + (if p y then 1 else 0).
Proof.
  intros Hi. rewrite <- (take_drop_middle l i x Hi) at 2.
  rewrite insert_take_drop by (by eapply lookup_lt_Some).
  rewrite !filter_app, !filter_cons, !length_app.
  destruct (p x), (p y); repeat case_decide; simpl; try done; lia.
Qed.


(** Every step keeps room in [errc]. *)
Lemma step_room (a : Action) (s s' : FanIn W) :
  fan_room s → step a s = Some s' → fan_room s' ∧ fan_cap s' = fan_cap s.
Proof.
  unfold fan_room. intros [Hc Hroom]. destruct a as [pick|i|e]; simpl.
  - unfold main_step. destruct (fan_main s) as [[|id rest]|] eqn:Hm; [| |done].
    + destruct (go_select _ _) as [[]|]; [| |done].
      * destruct (fan_msgc s); [done|]. intros [= <-]. simpl. by rewrite Hm.
      * destruct (fan_errc s) as [|err q]; [done|]. intros [= <-]. simpl in *. lia.
    + unfold Now_UnixNano, NewReceiver, call, bind, ret. simpl.
      repeat split_run; intros [= <-]; simpl in *; simplify_eq; [|lia].
      rewrite filter_app, length_app. simpl in *. lia.
  - unfold worker_step. destruct (fan_workers s !! i) as [w|] eqn:Hi; [|done].
    unfold Receive, Accept, ReceiverClose, call.
    destruct (w_pc w) eqn:Hwpc; simpl; repeat split_run; intros [= <-]; simpl;
      (match goal with
       | |- context [<[_ := ?x]> _] =>
           pose proof (filter_insert_length may_send_err
                         (fan_workers s) i w x Hi) as Hins
       end);
      unfold may_send_err in *; simpl in Hins; rewrite Hwpc in Hins;
      rewrite ?length_app; simpl; lia.
  - by intros [= <-].
Qed.

Lemma run_room (sched : list Action) (s : FanIn W) :
  fan_room s → fan_room (run sched s).
Proof.
  revert s. induction sched as [|a sched IH]; intros s Hs; [done|].
  simpl. destruct (step a s) as [s'|] eqn:Hstep; simpl; [|by apply IH].
  apply IH. by eapply step_room.
Qed.

Lemma fan_start_room (name group : string) (st : St W) (ctx : Context)
    (ids : list string) :
  fan_room (fan_start name group st ctx ids).
Proof. unfold fan_room. simpl. lia. Qed.


(** C5. Take a run of [SubscribePartitions] started at [T] (Unix
    nanoseconds) whose trace shows no clock reading before [T] and no
    message received on a link whose selector rejects it.  Then every
    partition receiver is configured so that it admits no message
    enqueued strictly before [T], and no message dispatched to the
    callback was enqueued strictly before [T]: all were enqueued at or
    after [T]. *)
Theorem SubscribePartitions_enqueued_from_start (T : Z) (name group : string)
    (st : St W) (ctx : Context) (ids : list string) (s : FanIn W) :
  fan_reachable (fan_start name group st ctx ids) s →
  Forall (call_ok T) (st_calls (fan_st s)) →
  (∀ w m, w ∈ fan_workers s → link_admits (link_opts (w_recv w)) m = true →
      ¬ (EnqueuedTime m * 1000000 < T)%Z)
  ∧ (∀ m, m ∈ fan_dispatched s →
      ¬ (EnqueuedTime m * 1000000 < T)%Z ∧ (T ≤ EnqueuedTime m * 1000000)%Z).
Proof.
  intros [sched ->] Hcalls.
  destruct (run_from T sched _ (fan_start_from T name group st ctx ids) Hcalls)
    as (Hw & _ & Hd).
  split.
  - intros w m Hin Hadm. rewrite Forall_forall in Hw.
    destruct (Hw w Hin) as [Hlink _]. specialize (Hlink m Hadm).
    unfold enqueued_from in Hlink. lia.
  - intros m Hin. rewrite Forall_forall in Hd. specialize (Hd m Hin).
    unfold enqueued_from in Hd. lia.
Qed.


End eventhub_fan_in.

(** ** Closing, in both packages *)
Section closing.
Context {T : Type} `{iotdevice.Transport T} {W : Type} `{eventhub.Env W}.

Lemma eventhub_Close_when_closed (c : eventhub.Client W) :
  eventhub.done c = true → eventhub.Close c = (None, c).
Proof. unfold eventhub.Close. by intros ->. Qed.

Lemma eventhub_Close_closes (c : eventhub.Client W) :
  eventhub.done (eventhub.Close c).2 = true.
Proof.
  unfold eventhub.Close, eventhub.call.
  destruct (eventhub.done c) eqn:E; [done|]. by repeat split_run.
Qed.

Lemma eventhub_Close_n_when_closed (n : nat) (c : eventhub.Client W) :
  eventhub.done c = true → eventhub.Close_n n c = (replicate n None, c).
Proof.
  intros Hd. induction n as [|n IH]; [done|].
  simpl. rewrite (eventhub_Close_when_closed c Hd), IH. done.
Qed.

Lemma eventhub_Close_n_first (n : nat) (c : eventhub.Client W) :
  eventhub.Close_n (S n) c
  = ((eventhub.Close c).1 :: replicate n None, (eventhub.Close c).2).
Proof.
  simpl. destruct (eventhub.Close c) as [r c'] eqn:E.
  rewrite eventhub_Close_n_when_closed; [done|].
  change c' with ((r, c').2). rewrite <- E. apply eventhub_Close_closes.
Qed.

(** The first [Close] of the eventhub client closes the session and, if
    that went well, the connection. *)
Lemma eventhub_Close_calls (c : eventhub.Client W) :
  eventhub.st_calls (eventhub.cl_st (eventhub.Close c).2)
  = eventhub.st_calls (eventhub.cl_st c)
    ++ (if eventhub.done c then []
        else
          let w := eventhub.st_world (eventhub.cl_st c) in
          eventhub.CallSessClose (eventhub.sess_Close w).1 ::
            match (eventhub.sess_Close w).1 with
            | None =>
                [eventhub.CallConnClose
                   (eventhub.conn_Close (eventhub.sess_Close w).2).1]
            | Some _ => []
            end).
Proof.
  unfold eventhub.Close, eventhub.call.
  destruct (eventhub.done c); [by rewrite app_nil_r|].
  repeat split_run; simplify_eq; by rewrite <- ?app_assoc.
Qed.

(** C4. [Close] is idempotent, in the device client and in the eventhub
    client: over any number of calls, the first one decides the result
    list's head and the final state, every later call returns nil, and
    the calls made to the collaborators are those of the first call
    alone: one close of the events multiplexer, one of the twin
    multiplexer and one of the transport for the device client; one
    close of the session and (when it succeeded) one of the connection
    for the eventhub client; none at all on a client closed before. *)
Theorem Close_idempotent (n : nat) (c : iotdevice.Client T) (d : eventhub.Client W) :
  iotdevice.Close_n (S n) c
  = ((iotdevice.Close c).1 :: replicate n None, (iotdevice.Close c).2)
  ∧ iotdevice.calls (iotdevice.Close_n (S n) c).2
    = iotdevice.calls c
      ++ (if iotdevice.done c then []
          else [iotdevice.CallEvMuxClose iotdevice.ErrClosed;
                iotdevice.CallTsMuxClose iotdevice.ErrClosed;
                iotdevice.CallTrClose])
  ∧ eventhub.Close_n (S n) d
    = ((eventhub.Close d).1 :: replicate n None, (eventhub.Close d).2)
  ∧ eventhub.st_calls (eventhub.cl_st (eventhub.Close_n (S n) d).2)
    = eventhub.st_calls (eventhub.cl_st d)
      ++ (if eventhub.done d then []
          else
            let w := eventhub.st_world (eventhub.cl_st d) in
            eventhub.CallSessClose (eventhub.sess_Close w).1 ::
              match (eventhub.sess_Close w).1 with
              | None =>
                  [eventhub.CallConnClose
                     (eventhub.conn_Close (eventhub.sess_Close w).2).1]
              | Some _ => []
              end).
Proof.
  rewrite Close_n_first, eventhub_Close_n_first. simpl.
  rewrite Close_calls, eventhub_Close_calls. done.
Qed.

End closing.

(** ** eventhub: what partition discovery does with a response *)
Section eventhub_discovery.
Import eventhub.
Context {W : Type} `{Env W}.

(** When the run of [getPartitionIDs] received a response, it had sent
    a READ request under a message id [msgID], and: a status code other
    than 200 gives an error built from code and description; a 200
    response with a properties section that does not echo [msgID] gives
    the mismatch error; a 200 response without a properties section
    makes the code panic; and identifiers are returned only for a 200
    response that echoes [msgID]. *)
Lemma getPartitionIDs_response_checked (ctx : Context) (name : string) (st : St W)
    (l : Link) (msg : Message) :
  CallReceive l (inl msg) ∈ new_calls st (getPartitionIDs ctx name st).2 →
  ∃ send msgID replyTo,
    CallSend send (read_request name msgID replyTo) None
      ∈ new_calls st (getPartitionIDs ctx name st).2
    ∧ (∀ rc, ApplicationProperties msg !! "status-code" = Some (VInt32 rc) →
         rc ≠ 200%Z →
         ∃ e, (getPartitionIDs ctx name st).1 = IdsErr e
           ∧ Contains (Error e) (pretty rc)
           ∧ Contains (Error e)
               (fmt_q (default VNil (ApplicationProperties msg !! "status-description"))))
    ∧ (∀ p, ApplicationProperties msg !! "status-code" = Some (VInt32 200) →
         Properties msg = Some p → CorrelationID p ≠ VString msgID →
         (getPartitionIDs ctx name st).1 = IdsErr (errors_New "message-id mismatch"))
    ∧ (ApplicationProperties msg !! "status-code" = Some (VInt32 200) →
         Properties msg = None →
         (getPartitionIDs ctx name st).1
         = IdsPanic "invalid memory address or nil pointer dereference")
    ∧ (∀ ids, (getPartitionIDs ctx name st).1 = Ids ids →
         ApplicationProperties msg !! "status-code" = Some (VInt32 200)
         ∧ ∃ p, Properties msg = Some p ∧ CorrelationID p = VString msgID).
Proof.
  intros Hrecv.
  destruct (getPartitionIDs_received ctx name st l msg Hrecv)
    as (send & msgID & replyTo & Hsent & ->).
  exists send, msgID, replyTo. split; [done|]. split; [|split; [|split]].
  - intros rc Hrc Hne. rewrite (read_response_status msgID msg rc Hrc Hne).
    eexists. split; [done|]. simpl. split; [apply Contains_middle|].
    rewrite <- !append_assoc. apply Contains_end.
  - intros p Hrc Hp Hne. by rewrite (read_response_mismatch msgID msg p Hrc Hp Hne).
  - intros Hrc Hp. by rewrite (read_response_nil_properties msgID msg Hrc Hp).
  - intros ids Hids. destruct (read_response msgID msg) as [r b] eqn:Hr.
    simpl in Hids. subst r.
    destruct (read_response_ids msgID msg ids b Hr) as (Hrc & p & val & Hp & Hc & _).
    split; [done|]. by exists p.
Qed.

End eventhub_discovery.

(** ** The code on concrete inputs *)

(** Connected, then closed: both channels are closed. *)
Lemma closed_client_state :
  iotdevice.ready closed_client = true ∧ iotdevice.done closed_client = true.
Proof. done. Qed.

(** C1, at a failing input.  On a device client that was connected and
    then closed, both the ready and the closed case of the wait can
    proceed; when the [select] takes the ready one, [SendEvent] does not
    return the closed error: it hands the message to the transport and
    returns its result. *)
Theorem SendEvent_after_Close_may_proceed :
  iotdevice.checkConnection 0 background closed_client = Some None
  ∧ ∃ c',
      iotdevice.SendEvent 0 background (Some [Byte.x01]) [] closed_client = Ret (None, c')
      ∧ iotdevice.calls c'
        = iotdevice.calls closed_client
          ++ [ iotdevice.CallSend
                 (iotdevice.mkMessage (Some [Byte.x01]) EmptyString EmptyString None None);
               iotdevice.CallDebugf
                 (iotdevice.mkMessage (Some [Byte.x01]) EmptyString EmptyString None None) ].
Proof. split; [reflexivity|]. eexists. split; reflexivity. Qed.

(** C9, as stated, fails: an empty payload that is not nil goes through
    to the transport and the call returns nil. *)
Lemma SendEvent_empty_payload_accepted :
  ∃ c',
    iotdevice.SendEvent 0 background (Some []) [] connected_client = Ret (None, c')
    ∧ iotdevice.calls c'
      = [ iotdevice.CallConnect;
          iotdevice.CallSend
            (iotdevice.mkMessage (Some []) EmptyString EmptyString None None);
          iotdevice.CallDebugf
            (iotdevice.mkMessage (Some []) EmptyString EmptyString None None) ].
Proof. eexists. split; reflexivity. Qed.

(** C8, at a failing input.  A response with status code 200 and no
    properties section echoes no correlation id; [getPartitionIDs] does
    not return an error on it: reading the correlation id through the
    nil [Properties] pointer panics. *)
Theorem getPartitionIDs_nil_properties_panics :
  (eventhub.getPartitionIDs background "telemetry" st_read_bare).1
  = eventhub.IdsPanic "invalid memory address or nil pointer dereference".
Proof. vm_compute. reflexivity. Qed.

(** A good response: the identifiers come back. *)
Lemma getPartitionIDs_example :
  (eventhub.getPartitionIDs background "telemetry" st_read_ok).1
  = eventhub.Ids ["0"; "1"].
Proof. vm_compute. reflexivity. Qed.

(** The scenario ends with the first partition's error returned, one
    message dispatched and one left in the channel. *)
Lemma scenario_result :
  eventhub.fan_main scenario = eventhub.MReturned script.E
  ∧ eventhub.fan_dispatched scenario = [script.M1]
  ∧ eventhub.fan_msgc scenario = [script.M2]
  ∧ eventhub.fan_ctx scenario = cancelled.
Proof. vm_compute. done. Qed.

(** ** The theorems at concrete inputs *)

Lemma Connect_single_shot_witness :
  ∃ c', iotdevice.Connect background refused_client = (Some refused, c')
    ∧ iotdevice.ready c' = false
    ∧ ∃ c'', iotdevice.Connect background c' = (None, c'')
        ∧ iotdevice.ready c'' = true.
Proof.
  destruct (Connect_single_shot background refused_client) as [_ Hfail].
  destruct (Hfail refused (script.mkTransport [] None) eq_refl eq_refl)
    as (c' & Hc & Hr & _ & _ & _ & Hretry).
  exists c'. split; [exact Hc|]. split; [exact Hr|].
  destruct (Hretry background (script.mkTransport [] None) eq_refl)
    as (c'' & Hc' & Hr' & _).
  exists c''. split; [exact Hc'|exact Hr'].
Defined.

Lemma SendEvent_payload_witness :
  iotdevice.SendEvent 0 background None [] connected_client
  = Ret (Some (errors_New "payload is nil"), connected_client)
  ∧ ∃ c', iotdevice.SendEvent 0 background (Some []) [] connected_client
          = Ret (None, c').
Proof.
  destruct (SendEvent_payload 0 background [] connected_client eq_refl eq_refl eq_refl)
    as [Hnil Hsome].
  split; [exact Hnil|].
  destruct (Hsome []) as (c' & Hc & _). exists c'. exact Hc.
Defined.

Lemma Version_total_witness :
  iotdevice.Version Int64 amd64_impl twin_v3 = 3%Z
  ∧ iotdevice.Version Int64 amd64_impl ∅ = 0%Z
  ∧ iotdevice.Version Int32 amd64_impl (<["$version" := VString "3"]> ∅) = 0%Z.
Proof.
  split; [|split].
  - apply (Version_total Int64 amd64_impl twin_v3) with (f := three); [reflexivity| |reflexivity].
    exists 3%Z. split; reflexivity.
  - apply (Version_total Int64 amd64_impl ∅). reflexivity.
  - apply (Version_total Int32 amd64_impl (<["$version" := VString "3"]> ∅))
      with (v := VString "3"); [reflexivity|]. intros f Hf. discriminate Hf.
Defined.

Lemma PutToken_status_witness :
  (eventhub.PutToken background "audience" "token" st_put_ok).1 = None
  ∧ ∃ e, (eventhub.PutToken background "audience" "token" st_put_404).1 = Some e
      ∧ Contains (Error e) "404".
Proof.
  split.
  - apply (PutToken_status background "audience" "token" st_put_ok cbs_receiver
             (script.response 200 "OK" "x" VNil)); [|reflexivity].
    vm_compute. repeat constructor.
  - destruct (PutToken_status background "audience" "token" st_put_404 cbs_receiver
                (script.response 404 "Not Found" "x" VNil)) as [_ Hbad].
    { vm_compute. repeat constructor. }
    destruct (Hbad 404%Z eq_refl) as (e & He & _ & Hcode & _); [discriminate|].
    exists e. split; [exact He|exact Hcode].
Defined.

Lemma PutTokenContinuously_first_put_decides_witness :
  (eventhub.PutTokenContinuously_then background "audience" "token"
     [eventhub.Tick; eventhub.Tick] st_put_ok_then_404).1.1 = None
  ∧ (eventhub.PutTokenContinuously_then background "audience" "token"
       [eventhub.Tick; eventhub.Tick] st_put_ok_then_404).1.2 = Some eventhub.Exited
  ∧ (eventhub.PutTokenContinuously background "audience" "token" st_put_404).1.1
    = (eventhub.PutToken background "audience" "token" st_put_404).1.
Proof.
  split; [|split].
  - destruct (PutTokenContinuously_first_put_decides background "audience" "token"
                st_put_ok_then_404 [eventhub.Tick; eventhub.Tick])
      as (_ & _ & _ & Hthen & _).
    rewrite Hthen. reflexivity.
  - reflexivity.
  - apply (PutTokenContinuously_first_put_decides background "audience" "token"
             st_put_404 []).
Defined.

Lemma scenario_reachable : eventhub.fan_reachable scenario_start scenario.
Proof. exists script.scenario_schedule. reflexivity. Defined.


Lemma SubscribePartitions_enqueued_from_start_witness :
  eventhub.fan_dispatched scenario = [script.M1]
  ∧ ¬ (eventhub.EnqueuedTime script.M1 * 1000000 < scenario_T)%Z.
Proof.
  split; [vm_compute; reflexivity|].
  destruct (SubscribePartitions_enqueued_from_start scenario_T "telemetry" "$Default"
              (script.st_with scenario_T [inl script.M1; inl script.M2; inr script.E])
              background ["0"; "1"] scenario scenario_reachable)
    as [_ Hd].
  - vm_compute. repeat constructor; discriminate.
  - apply (Hd script.M1). vm_compute. constructor.
Defined.

(** * Further properties of the code *)

(** ** eventhub: responses, links and acknowledgement *)
Section eventhub_links.
Import eventhub.
Context {W : Type} `{Env W}.

(** X1.  [CheckMessageResponse] returns nil exactly when the
    application property [status-code] is the [int32] 200.  A response
    without the property, or with one of another type (an [int64] 200
    included), is refused with [unable to typecast status-code]. *)
Theorem CheckMessageResponse_nil_iff (msg : Message) :
  (CheckMessageResponse msg = None
   ↔ ApplicationProperties msg !! "status-code" = Some (VInt32 200))
  ∧ ((∀ rc, ApplicationProperties msg !! "status-code" ≠ Some (VInt32 rc)) →
     CheckMessageResponse msg = Some (errors_New "unable to typecast status-code"))
  ∧ (∀ n, ApplicationProperties msg !! "status-code" = Some (VInt64 n) →
     CheckMessageResponse msg = Some (errors_New "unable to typecast status-code")).
Proof.
  split; [split; [apply CheckMessageResponse_ok|apply CheckMessageResponse_200]|].
  split; [apply CheckMessageResponse_untyped|].
  intros n Hn. apply CheckMessageResponse_untyped. intros rc. by rewrite Hn.
Qed.

(** X2.  [PutToken] leaks no link.  Every sending link it opened is
    closed in the same call, and that close is the last thing the call
    does; every receiving link it opened is closed too.  This holds on
    every path, the error paths included. *)
Theorem PutToken_releases_links (ctx : Context) (audience token : string) (st : St W) :
  (∀ opts n, CallNewSender opts (inl n) ∈ new_calls st (PutToken ctx audience token st).2 →
     CallSenderClose (mkLink n opts) ∈ new_calls st (PutToken ctx audience token st).2
     ∧ last (new_calls st (PutToken ctx audience token st).2)
       = Some (CallSenderClose (mkLink n opts)))
  ∧ (∀ opts n,
       CallNewReceiver opts (inl n) ∈ new_calls st (PutToken ctx audience token st).2 →
       CallReceiverClose (mkLink n opts) ∈ new_calls st (PutToken ctx audience token st).2).
Proof.
  split; intros opts n; unfold_session; repeat split_run; trace_goal;
    intuition (simplify_eq; auto 20).
Qed.

(** X3.  [PutToken] returns nil exactly when it accepted a message:
    the response is acknowledged only after its status check passed, and
    nothing after the acknowledgement can fail. *)
Theorem PutToken_accepts_iff_nil (ctx : Context) (audience token : string) (st : St W) :
  (PutToken ctx audience token st).1 = None
  ↔ ∃ msg, CallAccept msg ∈ new_calls st (PutToken ctx audience token st).2.
Proof.
  unfold_session; repeat split_run; trace_goal; split; try done.
  all: try (intros _; eexists; rewrite ?elem_of_cons; by eauto 20).
  all: intros [msg Hin]; exfalso; revert Hin; rewrite ?elem_of_cons, ?elem_of_nil;
    intuition congruence.
Qed.

(** X4.  [getPartitionIDs] leaks no link.  The receiving link it opened
    is closed in the same call, last of all (it is the first deferred
    close); the sending link it opened is closed too.  This holds on
    every path. *)
Theorem getPartitionIDs_releases_links (ctx : Context) (name : string) (st : St W) :
  (∀ opts n,
     CallNewReceiver opts (inl n) ∈ new_calls st (getPartitionIDs ctx name st).2 →
     CallReceiverClose (mkLink n opts) ∈ new_calls st (getPartitionIDs ctx name st).2
     ∧ last (new_calls st (getPartitionIDs ctx name st).2)
       = Some (CallReceiverClose (mkLink n opts)))
  ∧ (∀ opts n,
       CallNewSender opts (inl n) ∈ new_calls st (getPartitionIDs ctx name st).2 →
       CallSenderClose (mkLink n opts) ∈ new_calls st (getPartitionIDs ctx name st).2).
Proof.
  split; intros opts n; unfold_session; repeat split_run; trace_goal;
    intuition (simplify_eq; auto 20).
Qed.

(** X5.  Whatever [getPartitionIDs] sends is the READ request for the
    hub [name], under a message id and a reply address; it goes out on a
    link from the reply address to [$management], after a receiver from
    [$management] to that reply address was opened; and the call sends
    once. *)
Theorem getPartitionIDs_request (ctx : Context) (name : string) (st : St W)
    (l : Link) (msg : Message) (r : option error) :
  CallSend l msg r ∈ new_calls st (getPartitionIDs ctx name st).2 →
  ∃ msgID replyTo n1 n2,
    msg = read_request name msgID replyTo
    ∧ l = mkLink n2 [LinkTargetAddress "$management"; LinkSourceAddress replyTo]
    ∧ CallNewReceiver [LinkSourceAddress "$management"; LinkTargetAddress replyTo] (inl n1)
        ∈ new_calls st (getPartitionIDs ctx name st).2
    ∧ count_calls is_send
        (new_calls st (getPartitionIDs ctx name st).2) = 1.
Proof.
  unfold_session; repeat split_run; trace_goal; intros Hin.
  all: try (exfalso; intuition congruence).
  all: do 4 eexists; rewrite ?elem_of_cons.
  all: intuition (simplify_eq; eauto 20).
Qed.

(** The response is accepted on the way exactly when its status is
    200 and its properties echo the message id. *)
Lemma read_response_accepted (msgID : string) (msg : Message) :
  (read_response msgID msg).2 = true
  ↔ ApplicationProperties msg !! "status-code" = Some (VInt32 200)
    ∧ ∃ p, Properties msg = Some p ∧ CorrelationID p = VString msgID.
Proof.
  unfold read_response. split.
  - destruct (CheckMessageResponse msg) eqn:Hc; [done|].
    apply CheckMessageResponse_ok in Hc.
    destruct (Properties msg) as [p|]; [|done].
    destruct (CorrelationID p) eqn:Hcid; try done.
    case_bool_decide; [subst|done]. eauto.
  - intros (Hrc & p & Hp & Hcid).
    rewrite (CheckMessageResponse_200 msg Hrc), Hp, Hcid, bool_decide_true by done.
    destruct (Value msg) as [| | | | | | | | |val]; try done.
    by destruct (val !! "partition_ids") as [[]|].
Qed.

(** What [getPartitionIDs] returns and whether it accepts the response
    are read off the checks of the response. *)
Lemma getPartitionIDs_trace (ctx : Context) (name : string) (st : St W)
    (l : Link) (msg : Message) :
  CallReceive l (inl msg) ∈ new_calls st (getPartitionIDs ctx name st).2 →
  ∃ send msgID replyTo,
    CallSend send (read_request name msgID replyTo) None
      ∈ new_calls st (getPartitionIDs ctx name st).2
    ∧ (getPartitionIDs ctx name st).1 = (read_response msgID msg).1
    ∧ (CallAccept msg ∈ new_calls st (getPartitionIDs ctx name st).2
       ↔ (read_response msgID msg).2 = true).
Proof.
  unfold_session; repeat split_run; trace_goal; intros Hin.
  all: try (exfalso; intuition congruence).
  all: do 3 eexists; split; [rewrite ?elem_of_cons; eauto 10|].
  all: match goal with
       | Hr : receiver_Receive _ _ _ = (inl ?m, _) |- _ =>
           assert (m = msg) as -> by intuition congruence
       end.
  all: match goal with E : read_response _ _ = _ |- _ => rewrite E end; simpl.
  all: split; [done|]; rewrite ?elem_of_cons, ?elem_of_nil; intuition congruence.
Qed.

(** X6.  When [getPartitionIDs] received a response, it accepts it
    exactly when the status code is the [int32] 200 and the properties
    echo the message id of the request.  The payload is looked at only
    afterwards: a response that passes both checks and carries no map is
    accepted and then refused with [unable to typecast value]. *)
Theorem getPartitionIDs_accepts (ctx : Context) (name : string) (st : St W)
    (l : Link) (msg : Message) :
  CallReceive l (inl msg) ∈ new_calls st (getPartitionIDs ctx name st).2 →
  ∃ send msgID replyTo,
    CallSend send (read_request name msgID replyTo) None
      ∈ new_calls st (getPartitionIDs ctx name st).2
    ∧ (CallAccept msg ∈ new_calls st (getPartitionIDs ctx name st).2
       ↔ ApplicationProperties msg !! "status-code" = Some (VInt32 200)
         ∧ ∃ p, Properties msg = Some p ∧ CorrelationID p = VString msgID)
    ∧ ((∀ val, Value msg ≠ VMap val) →
       ApplicationProperties msg !! "status-code" = Some (VInt32 200) →
       (∃ p, Properties msg = Some p ∧ CorrelationID p = VString msgID) →
       (getPartitionIDs ctx name st).1 = IdsErr (errors_New "unable to typecast value")
       ∧ CallAccept msg ∈ new_calls st (getPartitionIDs ctx name st).2).
Proof.
  intros Hrecv.
  destruct (getPartitionIDs_trace ctx name st l msg Hrecv)
    as (send & msgID & replyTo & Hsent & Hres & Hacc).
  exists send, msgID, replyTo. split; [done|].
  split; [by rewrite Hacc, read_response_accepted|].
  intros Hval Hrc (p & Hp & Hcid). split.
  - rewrite Hres. unfold read_response.
    rewrite (CheckMessageResponse_200 msg Hrc), Hp, Hcid, bool_decide_true by done.
    destruct (Value msg) as [| | | | | | | | |val]; try done. by destruct (Hval val).
  - apply Hacc, read_response_accepted. eauto.
Qed.


(** ** eventhub: the renewal goroutine *)

Lemma new_calls_app (st st' st'' : St W) :
  st_calls st `prefix_of` st_calls st' →
  st_calls st' `prefix_of` st_calls st'' →
  new_calls st st'' = new_calls st st' ++ new_calls st' st''.
Proof.
  intros [k Hk] [k' Hk']. unfold new_calls.
  rewrite Hk', Hk, <- app_assoc, !drop_app_length.
  by rewrite (app_assoc (st_calls st)), drop_app_length.
Qed.

Lemma count_calls_app (p : Call → bool) (l1 l2 : list Call) :
  count_calls p (l1 ++ l2) = count_calls p l1 + count_calls p l2.
Proof. unfold count_calls. by rewrite filter_app, length_app. Qed.

(** One [PutToken] opens one sending link, writes no log line and only
    adds to the trace. *)
Lemma PutToken_counts (ctx : Context) (audience token : string) (st : St W) :
  st_calls st `prefix_of` st_calls (PutToken ctx audience token st).2
  ∧ count_calls is_put (new_calls st (PutToken ctx audience token st).2) = 1
  ∧ count_calls is_log (new_calls st (PutToken ctx audience token st).2) = 0.
Proof.
  unfold_session; repeat split_run; rewrite <- ?app_assoc, ?drop_app_length;
    (split; [by apply prefix_app_r|done]).
Qed.

(** X7.  The renewal goroutine of [PutTokenContinuously], over any
    sequence of wake-ups: it only adds to the trace; it puts the token at
    most once per tick that comes before the stop; it writes at most one
    log line; and while it is still waiting it has written none and has
    put the token once per wake-up. *)
Theorem renewal_loop_counts (ctx : Context) (audience token : string)
    (wakes : list wake) (st : St W) :
  st_calls st `prefix_of` st_calls (renewal_loop ctx audience token wakes st).2
  ∧ count_calls is_put (new_calls st (renewal_loop ctx audience token wakes st).2)
    ≤ ticks_before_stop wakes
  ∧ count_calls is_log (new_calls st (renewal_loop ctx audience token wakes st).2) ≤ 1
  ∧ ((renewal_loop ctx audience token wakes st).1 = Waiting →
     count_calls is_log (new_calls st (renewal_loop ctx audience token wakes st).2) = 0
     ∧ count_calls is_put (new_calls st (renewal_loop ctx audience token wakes st).2)
       = length wakes).
Proof.
  revert st. induction wakes as [|[] wakes IH]; intros st.
  - simpl. unfold ret, new_calls. simpl. rewrite drop_all.
    split; [done|]. cbn. repeat split; lia.
  - simpl. unfold bind.
    destruct (PutToken_counts ctx audience token st) as (Hpre & Hput & Hlog).
    destruct (PutToken ctx audience token st) as [[e|] st'] eqn:Hp; simpl in *.
    + unfold new_calls in *. simpl.
      destruct Hpre as [k Hk]. rewrite Hk in *.
      rewrite <- app_assoc, drop_app_length in *.
      rewrite !count_calls_app, Hput, Hlog. simpl.
      split; [by apply prefix_app_r|].
      change (count_calls is_put [CallLogPrintf ("put token error: " +:+ Error e)]) with 0.
      change (count_calls is_log [CallLogPrintf ("put token error: " +:+ Error e)]) with 1.
      repeat split; try done; lia.
    + destruct (IH st') as (Hpre' & Hput' & Hlog' & Hwait).
      split; [by etrans|].
      rewrite (new_calls_app st st' _ Hpre Hpre'), !count_calls_app, Hput, Hlog.
      split; [lia|]. split; [lia|]. intros Hw. destruct (Hwait Hw) as [-> ->]. done.
  - simpl. unfold ret, new_calls. simpl. rewrite drop_all.
    split; [done|]. cbn. repeat split; try done; lia.
Qed.

End eventhub_links.

(** ** eventhub: dialling and closing *)
Section eventhub_dial.
Import eventhub.
Context {W : Type} `{Env W} `{Dialer W}.

(** X8.  When the session refuses to close, [Close] returns that error,
    never closes the connection, and still marks the client closed: the
    following calls return nil and the connection stays open. *)
Theorem Close_session_failure (n : nat) (c : Client W) (e : error) :
  done c = false →
  (sess_Close (st_world (cl_st c))).1 = Some e →
  (Close_n (S n) c).1 = Some e :: replicate n None
  ∧ done (Close_n (S n) c).2 = true
  ∧ new_calls (cl_st c) (cl_st (Close_n (S n) c).2) = [CallSessClose (Some e)]
  ∧ ∀ r, CallConnClose r ∉ new_calls (cl_st c) (cl_st (Close_n (S n) c).2).
Proof.
  intros Hd He. rewrite eventhub_Close_n_first. simpl.
  pose proof (eventhub_Close_calls c) as Hcalls. rewrite Hd in Hcalls. simpl in Hcalls.
  rewrite He in Hcalls.
  assert (new_calls (cl_st c) (cl_st (Close c).2) = [CallSessClose (Some e)]) as Hnew.
  { unfold new_calls. by rewrite Hcalls, drop_app_length. }
  split; [|split; [apply eventhub_Close_closes|split; [done|]]].
  - f_equal. unfold Close, call. rewrite Hd.
    destruct (sess_Close (st_world (cl_st c))) as [r w]. simpl in He. by subst r.
  - intros r. rewrite Hnew. by intros [=]%list_elem_of_singleton.
Qed.

(** X9.  [Dial] returns a client only when both the connection and the
    session were opened; the client is open, and its [Close] closes the
    session and then, when that succeeded, the connection.  When the dial
    fails nothing is closed; when the session cannot be opened the
    connection is closed again and the session's error is returned,
    whatever the close returned. *)
Theorem Dial_outcome (hostname : string) (st : St W) :
  match Dial hostname st with
  | inl c =>
      done c = false ∧ st_calls (cl_st c) = st_calls st
      ∧ (amqp_Dial ("amqps://" +:+ hostname) (st_world st)).1 = None
      ∧ (conn_NewSession (amqp_Dial ("amqps://" +:+ hostname) (st_world st)).2).1 = None
      ∧ new_calls st (cl_st (Close c).2)
        = CallSessClose (sess_Close (st_world (cl_st c))).1 ::
            match (sess_Close (st_world (cl_st c))).1 with
            | None => [CallConnClose (conn_Close (sess_Close (st_world (cl_st c))).2).1]
            | Some _ => []
            end
  | inr (err, st') =>
      ((amqp_Dial ("amqps://" +:+ hostname) (st_world st)).1 = Some err
       ∧ st_calls st' = st_calls st)
      ∨ ((amqp_Dial ("amqps://" +:+ hostname) (st_world st)).1 = None
         ∧ (conn_NewSession (amqp_Dial ("amqps://" +:+ hostname) (st_world st)).2).1
           = Some err
         ∧ ∃ r, st_calls st' = st_calls st ++ [CallConnClose r])
  end.
Proof.
  unfold Dial, call.
  destruct (amqp_Dial _ _) as [[e|] w1]; simpl; [by left|].
  destruct (conn_NewSession w1) as [[e|] w2]; simpl.
  - destruct (conn_Close w2) as [r w3]. right. eauto.
  - do 4 (split; [done|]).
    pose proof (eventhub_Close_calls (mkClient (mkSt w2 (st_calls st)) false)) as Hc.
    simpl in Hc. unfold new_calls. by rewrite Hc, drop_app_length.
Qed.

End eventhub_dial.

(** ** eventhub: more on the partition fan-in *)
Section eventhub_fan_in_more.
Import eventhub.
Context {W : Type} `{Env W}.

(** With nothing in either channel the caller's [select] blocks. *)
Lemma main_step_blocked (pick : nat) (s : FanIn W) :
  fan_main s = MRunning [] → fan_msgc s = [] → fan_errc s = [] →
  main_step pick s = None.
Proof.
  intros Hm Hq He. unfold main_step. rewrite Hm.
  rewrite go_select_blocked; [done|].
  unfold main_select_cases, ready_cases. by rewrite Hq, He.
Qed.

(** X10.  With no partition, [SubscribePartitions] opens no receiver,
    starts no goroutine and blocks in its [select] for ever: under every
    schedule it has not returned and cannot take a step, not even when
    the caller's context ends, since the loop has no case for it. *)
Theorem SubscribePartitions_no_partitions (name group : string) (st : St W)
    (ctx : Context) (sched : list Action) :
  fan_main (run sched (fan_start name group st ctx [])) = MRunning []
  ∧ fan_workers (run sched (fan_start name group st ctx [])) = []
  ∧ fan_dispatched (run sched (fan_start name group st ctx [])) = []
  ∧ fan_st (run sched (fan_start name group st ctx [])) = st
  ∧ ∀ pick, main_step pick (run sched (fan_start name group st ctx [])) = None.
Proof.
  assert (∀ s : FanIn W,
    fan_main s = MRunning [] ∧ fan_workers s = [] ∧ fan_msgc s = []
    ∧ fan_errc s = [] ∧ fan_dispatched s = [] ∧ fan_st s = st →
    fan_main (run sched s) = MRunning [] ∧ fan_workers (run sched s) = []
    ∧ fan_msgc (run sched s) = [] ∧ fan_errc (run sched s) = []
    ∧ fan_dispatched (run sched s) = [] ∧ fan_st (run sched s) = st) as Hrun.
  { induction sched as [|a sched IH]; intros s Hs; [done|].
    simpl. apply IH. destruct Hs as (Hm & Hw & Hq & He & Hd & Hst).
    destruct a as [pick|i|e]; simpl.
    - by rewrite main_step_blocked.
    - unfold worker_step. by rewrite Hw.
    - done. }
  destruct (Hrun (fan_start name group st ctx [])) as (Hm & Hw & Hq & He & Hd & Hst);
    [done|].
  do 4 (split; [done|]). intros pick. by apply main_step_blocked.
Qed.

Lemma Forall2_insert_l {A B} (P : A → B → Prop) (l : list A) (k : list B) (i : nat)
    (x y : A) :
  l !! i = Some x → (∀ b, P x b → P y b) →
  Forall2 P l k → Forall2 P (<[i:=y]> l) k.
Proof.
  intros Hi Hxy Hall. revert i Hi.
  induction Hall as [|a b l k Hab Hall IH]; intros [|i] Hi; simplify_eq/=.
  - constructor; auto.
  - constructor; auto.
Qed.

Lemma step_opened_for (name group : string) (ids : list string) (a : Action)
    (s s' : FanIn W) :
  opened_for name group ids s → step a s = Some s' → opened_for name group ids s'.
Proof.
  intros (Hn & Hg & opened & Hall & Hmain). destruct a as [pick|i|e]; simpl.
  - unfold main_step. destruct (fan_main s) as [[|id rest]|] eqn:Hm; [| |done].
    + destruct (go_select _ _) as [[]|]; [| |done].
      * destruct (fan_msgc s); [done|]. intros [= <-]. repeat split; try done.
        exists opened. simpl. by rewrite Hm.
      * destruct (fan_errc s); [done|]. intros [= <-]. repeat split; try done.
        exists opened. simpl. split; [done|]. subst ids. by apply prefix_app_r.
    + unfold Now_UnixNano, NewReceiver, call, bind, ret. simpl.
      repeat split_run; intros [= <-]; simpl in *; simplify_eq.
      * repeat split; try done. exists (opened ++ [id]). simpl. split.
        -- apply Forall2_app; [done|]. repeat constructor. by eexists.
        -- by rewrite <- app_assoc.
      * repeat split; try done. exists opened. simpl. split; [done|].
        by apply prefix_app_r.
  - unfold worker_step. destruct (fan_workers s !! i) as [w|] eqn:Hi; [|done].
    unfold Receive, Accept, ReceiverClose, call.
    destruct (w_pc w) eqn:Hwpc; simpl; repeat split_run; intros [= <-]; simpl.
    all: repeat split; try done; exists opened; simpl; split; try done.
    all: eapply Forall2_insert_l; [exact Hi| |exact Hall]; intros id Hw; exact Hw.
  - intros [= <-]. repeat split; try done. by exists opened.
Qed.

(** X11.  Under every schedule the receivers of [SubscribePartitions]
    are those of a prefix of the partitions, one each and in order, each
    from [/name/ConsumerGroups/group/Partitions/id] under an
    enqueued-time selector; while the opening loop runs, the partitions
    still to open are the rest. *)
Theorem SubscribePartitions_one_receiver_per_partition (name group : string)
    (st : St W) (ctx : Context) (ids : list string) (sched : list Action) :
  ∃ opened,
    Forall2 (λ w id, worker_of name group id w)
      (fan_workers (run sched (fan_start name group st ctx ids))) opened
    ∧ opened `prefix_of` ids
    ∧ length (fan_workers (run sched (fan_start name group st ctx ids))) ≤ length ids
    ∧ ∀ rest, fan_main (run sched (fan_start name group st ctx ids)) = MRunning rest →
        ids = opened ++ rest.
Proof.
  assert (∀ s, opened_for name group ids s → opened_for name group ids (run sched s))
    as Hrun.
  { induction sched as [|a sched IH]; intros s Hs; [done|].
    simpl. destruct (step a s) as [s'|] eqn:Hstep; simpl; [|by apply IH].
    apply IH. by eapply step_opened_for. }
  destruct (Hrun (fan_start name group st ctx ids)) as (_ & _ & opened & Hall & Hmain).
  { repeat split. exists []. by split; [constructor|]. }
  exists opened. split; [done|].
  assert (opened `prefix_of` ids) as Hpre.
  { destruct (fan_main _); [subst ids; by apply prefix_app_r|done]. }
  split; [done|]. split.
  - rewrite (Forall2_length _ _ _ Hall). by apply prefix_length.
  - intros rest Hm. by rewrite Hm in Hmain.
Qed.

Lemma acked_prefix (l1 l2 : list Call) (m : Message) :
  l1 `prefix_of` l2 → acked l1 m → acked l2 m.
Proof.
  intros [k ->] [Ha [l Hr]]. split; [|exists l]; rewrite elem_of_app; by left.
Qed.

Lemma fan_acked_prefix (s s' : FanIn W) :
  st_calls (fan_st s) `prefix_of` st_calls (fan_st s') →
  fan_acked s →
  Forall (λ w, match w_pc w with
               | WSendMsg m => acked (st_calls (fan_st s')) m
               | _ => True
               end) (fan_workers s)
  ∧ Forall (acked (st_calls (fan_st s'))) (fan_msgc s)
  ∧ Forall (acked (st_calls (fan_st s'))) (fan_dispatched s).
Proof.
  intros Hpre (Hw & Hq & Hd). repeat split.
  - eapply Forall_impl; [exact Hw|]. intros w. simpl.
    destruct (w_pc w); try done. by apply acked_prefix.
  - eapply Forall_impl; [exact Hq|]. intros m. by apply acked_prefix.
  - eapply Forall_impl; [exact Hd|]. intros m. by apply acked_prefix.
Qed.

Lemma step_acked (a : Action) (s s' : FanIn W) :
  fan_acked s → step a s = Some s' → fan_acked s'.
Proof.
  intros Hs Hstep.
  destruct (fan_acked_prefix s s' (step_calls a s s' Hstep) Hs) as (Hw & Hq & Hd).
  revert Hstep. destruct a as [pick|i|e]; simpl.
  - unfold main_step. destruct (fan_main s) as [[|id rest]|]; [| |done].
    + destruct (go_select _ _) as [[]|]; [| |done].
      * destruct (fan_msgc s) as [|msg q] eqn:Hmsgc; [done|]. intros [= <-].
        simpl in *. apply Forall_cons in Hq as [Hmsg Hq].
        split; [done|]. split; [done|]. simpl. apply Forall_app.
        split; [done|]. constructor; [done|constructor].
      * destruct (fan_errc s); [done|]. by intros [= <-].
    + unfold Now_UnixNano, NewReceiver, call, bind, ret. simpl.
      repeat split_run; intros [= <-]; simpl in *; simplify_eq; [|done].
      split; [|done]. simpl. apply Forall_app. split; [done|]. constructor; [done|constructor].
  - unfold worker_step. destruct (fan_workers s !! i) as [w|] eqn:Hi; [|done].
    pose proof (Forall_lookup_1 _ _ _ _ Hw Hi) as Hpc.
    unfold Receive, Accept, ReceiverClose, call.
    destruct (w_pc w) eqn:Hwpc; simpl; repeat split_run; intros [= <-]; simpl in *;
      simplify_eq; rewrite Hwpc in Hpc.
    + split; [|done]. simpl. apply Forall_insert; [done|]. simpl. split.
      * rewrite elem_of_app. right. by apply list_elem_of_singleton.
      * eexists. rewrite elem_of_app. left. rewrite elem_of_app. right.
        by apply list_elem_of_singleton.
    + split; [|done]. simpl. by apply Forall_insert.
    + split; [simpl; by apply Forall_insert|]. split; [|done]. simpl.
      apply Forall_app. split; [done|]. constructor; [done|constructor].
    + split; [|done]. simpl. by apply Forall_insert.
    + split; [|done]. simpl. by apply Forall_insert.
  - by intros [= <-].
Qed.

(** X12.  Every message that [SubscribePartitions] hands to the
    callback, or holds in its channel, was received on a link and
    accepted before: the goroutines acknowledge a message before they
    pass it on. *)
Theorem SubscribePartitions_accepts_before_dispatch (name group : string)
    (st : St W) (ctx : Context) (ids : list string) (sched : list Action) (m : Message) :
  m ∈ fan_dispatched (run sched (fan_start name group st ctx ids))
  ∨ m ∈ fan_msgc (run sched (fan_start name group st ctx ids)) →
  CallAccept m ∈ st_calls (fan_st (run sched (fan_start name group st ctx ids)))
  ∧ ∃ l, CallReceive l (inl m)
           ∈ st_calls (fan_st (run sched (fan_start name group st ctx ids))).
Proof.
  assert (∀ s, fan_acked s → fan_acked (run sched s)) as Hrun.
  { induction sched as [|a sched IH]; intros s Hs; [done|].
    simpl. destruct (step a s) as [s'|] eqn:Hstep; simpl; [|by apply IH].
    apply IH. by eapply step_acked. }
  destruct (Hrun (fan_start name group st ctx ids)) as (_ & Hq & Hd).
  { by repeat split. }
  rewrite Forall_forall in Hq. rewrite Forall_forall in Hd.
  intros [Hin|Hin]; [by apply Hd|by apply Hq].
Qed.

(** After the return, with the message channel full, a goroutine that
    holds a message stays where it is. *)
Lemma step_stuck (a : Action) (s s' : FanIn W) (err : error) (i : nat) (w : Worker)
    (m : Message) :
  fan_main s = MReturned err → fan_cap s ≤ length (fan_msgc s) →
  fan_workers s !! i = Some w → w_pc w = WSendMsg m →
  step a s = Some s' →
  fan_main s' = MReturned err ∧ fan_cap s' ≤ length (fan_msgc s')
  ∧ fan_workers s' !! i = Some w ∧ fan_dispatched s' = fan_dispatched s.
Proof.
  intros Hm Hfull Hi Hpc. destruct a as [pick|j|e]; simpl.
  - unfold main_step. by rewrite Hm.
  - unfold worker_step. destruct (decide (j = i)) as [->|Hne].
    + rewrite Hi, Hpc. rewrite decide_False; [done|lia].
    + destruct (fan_workers s !! j) as [w'|] eqn:Hj; [|done].
      unfold Receive, Accept, ReceiverClose, call.
      destruct (w_pc w') eqn:Hwpc; simpl; repeat split_run; intros [= <-]; simpl;
        rewrite ?list_lookup_insert_ne by done; rewrite ?length_app; simpl;
        repeat split; try done; lia.
  - intros [= <-]. done.
Qed.

(** X13.  After [SubscribePartitions] returned, a goroutine that holds
    a message while the message channel is full stays where it is under
    every schedule: nobody reads the channel any more and the send has no
    case for the cancelled context, so the goroutine never reaches its
    deferred close, and the message is never dispatched. *)
Theorem SubscribePartitions_stuck_goroutine (s : FanIn W) (err : error) (i : nat)
    (w : Worker) (m : Message) (sched : list Action) :
  fan_main s = MReturned err → fan_cap s ≤ length (fan_msgc s) →
  fan_workers s !! i = Some w → w_pc w = WSendMsg m →
  fan_workers (run sched s) !! i = Some w
  ∧ worker_step i (run sched s) = None
  ∧ fan_dispatched (run sched s) = fan_dispatched s.
Proof.
  revert s. induction sched as [|a sched IH]; intros s Hm Hfull Hi Hpc.
  - simpl. split; [done|]. split; [|done].
    unfold worker_step. rewrite Hi, Hpc. rewrite decide_False; [done|lia].
  - simpl. destruct (step a s) as [s'|] eqn:Hstep; simpl; [|by apply IH].
    destruct (step_stuck a s s' err i w m Hm Hfull Hi Hpc Hstep) as (Hm' & Hf' & Hi' & Hd').
    rewrite <- Hd'. by apply IH.
Qed.

(** The capacity of the channels is the number of partitions, and
    [msgc] never holds more. *)
Lemma step_bounds (a : Action) (s s' : FanIn W) :
  length (fan_msgc s) ≤ fan_cap s → step a s = Some s' →
  fan_cap s' = fan_cap s ∧ length (fan_msgc s') ≤ fan_cap s'.
Proof.
  intros Hq. destruct a as [pick|i|e]; simpl.
  - unfold main_step. destruct (fan_main s) as [[|id rest]|]; [| |done].
    + destruct (go_select _ _) as [[]|]; [| |done].
      * destruct (fan_msgc s) as [|msg q]; [done|]. intros [= <-]. simpl in *. lia.
      * destruct (fan_errc s); [done|]. by intros [= <-].
    + unfold Now_UnixNano, NewReceiver, call, bind, ret. simpl.
      repeat split_run; by intros [= <-].
  - unfold worker_step. destruct (fan_workers s !! i) as [w|]; [|done].
    unfold Receive, Accept, ReceiverClose, call.
    destruct (w_pc w); simpl; repeat split_run; intros [= <-]; simpl;
      rewrite ?length_app; simpl; split; try done; lia.
  - by intros [= <-].
Qed.

(** X14.  Both channels of [SubscribePartitions] have one slot per
    partition, and under every schedule neither holds more; the errors
    sent so far and the goroutines that may still send one never exceed
    the number of partitions. *)
Theorem SubscribePartitions_channel_bounds (name group : string) (st : St W)
    (ctx : Context) (ids : list string) (sched : list Action) :
  fan_cap (run sched (fan_start name group st ctx ids)) = length ids
  ∧ length (fan_msgc (run sched (fan_start name group st ctx ids))) ≤ length ids
  ∧ length (fan_errc (run sched (fan_start name group st ctx ids))) ≤ length ids
  ∧ length (fan_errs_sent (run sched (fan_start name group st ctx ids)))
    + length (filter (λ w, may_send_err w = true)
                (fan_workers (run sched (fan_start name group st ctx ids))))
    ≤ length ids.
Proof.
  assert (∀ s, length (fan_msgc s) ≤ fan_cap s →
    fan_cap (run sched s) = fan_cap s
    ∧ length (fan_msgc (run sched s)) ≤ fan_cap (run sched s)) as Hrun.
  { induction sched as [|a sched IH]; intros s Hs; [done|].
    simpl. destruct (step a s) as [s'|] eqn:Hstep; simpl; [|by apply IH].
    destruct (step_bounds a s s' Hs Hstep) as [Hc Hq].
    destruct (IH s' Hq) as [Hc' Hq']. split; [congruence|done]. }
  destruct (Hrun (fan_start name group st ctx ids)) as [Hc Hq]; [simpl; lia|].
  destruct (run_room sched _ (fan_start_room name group st ctx ids)) as [He Hroom].
  simpl in Hc. rewrite Hc in *. repeat split; try done; lia.
Qed.

End eventhub_fan_in_more.

(** ** iotdevice: the wait as a race, and what it guards *)
Section iotdevice_gate.
Import iotdevice.
Context {T : Type} `{Transport T}.
Variable json_Unmarshal_twin : bytes → (option (gmap string value) * option (gmap string value)) + error.
Variable json_Marshal : gmap string value → bytes * option error.

Lemma checkConnection_ready_cases (ctx : Context) (c : Client T) :
  ready_cases (checkConnection_cases c ctx)
  = (if ready c then [None] else [])
    ++ (if done c then [Some ErrClosed] else [])
    ++ match ctx_Err ctx with Some ce => [Some (context_Err ce)] | None => [] end.
Proof.
  unfold checkConnection_cases, ready_cases, ctx_Done.
  destruct (ready c), (done c), (ctx_Err ctx); done.
Qed.

(** X16.  The wait of [checkConnection] is a race with no priority.
    What it returns is always backed by a channel: nil only on a ready
    client, [ErrClosed] only on a closed one, a context error only under
    a done context, and it blocks only when none of the three holds.
    Conversely each case that can proceed is taken by some choice of the
    [select]. *)
Theorem checkConnection_race (pick : nat) (ctx : Context) (c : Client T) :
  match checkConnection pick ctx c with
  | None => ready c = false ∧ done c = false ∧ ctx_Err ctx = None
  | Some None => ready c = true
  | Some (Some e) =>
      (e = ErrClosed ∧ done c = true)
      ∨ (∃ ce, ctx_Err ctx = Some ce ∧ e = context_Err ce)
  end
  ∧ (ready c = true → ∃ pick', checkConnection pick' ctx c = Some None)
  ∧ (done c = true → ∃ pick', checkConnection pick' ctx c = Some (Some ErrClosed))
  ∧ (∀ ce, ctx_Err ctx = Some ce →
       ∃ pick', checkConnection pick' ctx c = Some (Some (context_Err ce))).
Proof.
  split; [|split; [|split]].
  - destruct (checkConnection pick ctx c) as [r|] eqn:Hc.
    + apply go_select_ready in Hc. rewrite checkConnection_ready_cases in Hc.
      rewrite !elem_of_app in Hc.
      destruct (ready c), (done c), (ctx_Err ctx) as [ce|];
        rewrite ?elem_of_cons, ?elem_of_nil in Hc;
        destruct r as [e|]; intuition (simplify_eq; eauto).
    + unfold checkConnection in Hc.
      destruct (ready_cases (checkConnection_cases c ctx)) as [|x l] eqn:Hr.
      * rewrite checkConnection_ready_cases in Hr.
        by destruct (ready c), (done c), (ctx_Err ctx).
      * destruct (go_select_enabled (checkConnection_cases c ctx) pick) as [y Hy];
          [by rewrite Hr|congruence].
  - intros Hr. apply go_select_may. rewrite checkConnection_ready_cases, Hr.
    rewrite elem_of_app. left. by apply list_elem_of_singleton.
  - intros Hd. apply go_select_may. rewrite checkConnection_ready_cases, Hd.
    rewrite !elem_of_app. right. left. by apply list_elem_of_singleton.
  - intros ce Hce. apply go_select_may. rewrite checkConnection_ready_cases, Hce.
    rewrite !elem_of_app. right. right. by apply list_elem_of_singleton.
Qed.

(** On a client that is not ready the wait never lets a caller through. *)
Lemma checkConnection_unready (pick : nat) (ctx : Context) (c : Client T) :
  ready c = false →
  checkConnection pick ctx c = None ∨ ∃ e, checkConnection pick ctx c = Some (Some e).
Proof.
  intros Hr. destruct (checkConnection pick ctx c) as [[e|]|] eqn:Hc; eauto.
  apply go_select_ready in Hc. rewrite checkConnection_ready_cases, Hr in Hc.
  rewrite !elem_of_app in Hc.
  destruct (done c), (ctx_Err ctx); rewrite ?elem_of_cons, ?elem_of_nil in Hc;
    intuition congruence.
Qed.

(** X17.  On a client that is not ready none of the six data-plane
    operations reaches the transport: whenever one returns, it returns an
    error, zero values besides, and the client unchanged. *)
Theorem data_plane_needs_ready (pick : nat) (ctx : Context) (c : Client T) :
  ready c = false →
  (∀ payload opts r c', SendEvent pick ctx payload opts c = Ret (r, c') →
     is_Some r ∧ c' = c)
  ∧ (∀ sub r c', SubscribeEvents pick ctx c = Ret (sub, r, c') →
       sub = None ∧ is_Some r ∧ c' = c)
  ∧ (∀ name fn r c', RegisterMethod pick ctx name fn c = Ret (r, c') →
       is_Some r ∧ c' = c)
  ∧ (∀ d p r c', RetrieveTwinState json_Unmarshal_twin pick ctx c = Ret (d, p, r, c') →
       d = None ∧ p = None ∧ is_Some r ∧ c' = c)
  ∧ (∀ s v r c', UpdateTwinState json_Marshal pick ctx s c = Ret (v, r, c') →
       v = 0%Z ∧ is_Some r ∧ c' = c)
  ∧ (∀ sub r c', SubscribeTwinUpdates pick ctx c = Ret (sub, r, c') →
       sub = None ∧ is_Some r ∧ c' = c).
Proof.
  intros Hr.
  unfold SendEvent, SubscribeEvents, RegisterMethod, RetrieveTwinState,
    UpdateTwinState, SubscribeTwinUpdates.
  destruct (checkConnection_unready pick ctx c Hr) as [->|[e ->]];
    repeat split; intros; simplify_eq; eauto.
Qed.

(** X18.  [Close] wakes the callers that wait for the connection.  On
    a client that is neither ready nor closed, under a live context, the
    wait blocks; once [Close] has run, the wait and all six data-plane
    operations return [ErrClosed], whatever the [select] picks, and leave
    the client as [Close] left it. *)
Theorem Close_unblocks_waiters (pick pick' : nat) (ctx : Context) (c : Client T) :
  ready c = false → done c = false → ctx_Err ctx = None →
  checkConnection pick ctx c = None
  ∧ checkConnection pick' ctx (Close c).2 = Some (Some ErrClosed)
  ∧ (∀ payload opts,
       SendEvent pick ctx payload opts c = Blocked
       ∧ SendEvent pick' ctx payload opts (Close c).2
         = Ret (Some ErrClosed, (Close c).2))
  ∧ SubscribeEvents pick' ctx (Close c).2 = Ret (None, Some ErrClosed, (Close c).2)
  ∧ (∀ name fn,
       RegisterMethod pick' ctx name fn (Close c).2 = Ret (Some ErrClosed, (Close c).2))
  ∧ RetrieveTwinState json_Unmarshal_twin pick' ctx (Close c).2
    = Ret (None, None, Some ErrClosed, (Close c).2)
  ∧ (∀ s, UpdateTwinState json_Marshal pick' ctx s (Close c).2
          = Ret (0%Z, Some ErrClosed, (Close c).2))
  ∧ SubscribeTwinUpdates pick' ctx (Close c).2
    = Ret (None, Some ErrClosed, (Close c).2).
Proof.
  intros Hr Hd Hc.
  assert (ready (Close c).2 = false) as Hr'.
  { unfold Close. rewrite Hd. by destruct (tr_Close _). }
  pose proof (checkConnection_closed_unready pick' ctx _ Hr' (Close_closes c) Hc) as Hw.
  pose proof (checkConnection_blocked pick ctx c Hr Hd Hc) as Hb.
  destruct (data_plane_gate json_Unmarshal_twin json_Marshal pick' ctx _ _ Hw)
    as (H1 & H2 & H3 & H4 & H5 & H6).
  split; [done|]. split; [done|]. split.
  - intros payload opts. split; [|apply H1]. unfold SendEvent. by rewrite Hb.
  - done.
Qed.

(** X19.  [RegisterMethod] never registers a handler under the empty
    name: the call blocks or returns an error, with the client
    unchanged.  On a ready, open client under a live context the error
    is [name cannot be blank]. *)
Theorem RegisterMethod_blank_name (pick : nat) (ctx : Context) (fn : DirectMethodHandler)
    (c : Client T) :
  (RegisterMethod pick ctx EmptyString fn c = Blocked
   ∨ ∃ err, RegisterMethod pick ctx EmptyString fn c = Ret (Some err, c))
  ∧ (ready c = true → done c = false → ctx_Err ctx = None →
     RegisterMethod pick ctx EmptyString fn c
     = Ret (Some (errors_New "name cannot be blank"), c)).
Proof.
  unfold RegisterMethod. split.
  - destruct (checkConnection pick ctx c) as [[e|]|]; eauto.
  - intros Hr Hd Hc. by rewrite (checkConnection_ready pick ctx c Hr Hd Hc).
Qed.

End iotdevice_gate.

(** ** iotdevice: send options *)
Section iotdevice_options.
Import iotdevice.
Context {T : Type} `{Transport T}.

Lemma builtin_option_ok (opt : SendOption) (msg : Message) :
  builtin_option opt → (opt msg).1 = None ∧ Payload (opt msg).2 = Payload msg.
Proof. by intros []. Qed.

Lemma apply_opts_builtin_ok (opts : list SendOption) (msg : Message) :
  Forall builtin_option opts →
  ∃ msg', apply_opts opts msg = inr msg' ∧ Payload msg' = Payload msg.
Proof.
  intros Hall. revert msg. induction Hall as [|opt opts Hopt Hall IH]; intros msg.
  - by exists msg.
  - destruct (builtin_option_ok opt msg Hopt) as [Hr Hp]. simpl.
    destruct (opt msg) as [r msg1]. simpl in *. subst r.
    destruct (IH msg1) as (msg' & -> & Hp'). exists msg'. split; [done|congruence].
Qed.

(** X20.  The send options of the package never fail and never touch
    the payload.  So on a ready, open client under a live context
    [SendEvent] with any list of them hands the transport a message with
    the caller's payload, and returns what the transport returned. *)
Theorem SendEvent_builtin_options (pick : nat) (ctx : Context) (p : list Byte.byte)
    (opts : list SendOption) (c : Client T) :
  Forall builtin_option opts →
  ready c = true → done c = false → ctx_Err ctx = None →
  ∃ msg c',
    apply_opts opts (mkMessage (Some p) EmptyString EmptyString None None) = inr msg
    ∧ Payload msg = Some p
    ∧ SendEvent pick ctx (Some p) opts c = Ret ((tr_Send ctx msg (tr c)).1, c')
    ∧ CallSend msg ∈ calls c'.
Proof.
  intros Hall Hr Hd Hc.
  destruct (apply_opts_builtin_ok opts
              (mkMessage (Some p) EmptyString EmptyString None None) Hall)
    as (msg & Hmsg & Hp).
  simpl in Hp. unfold SendEvent. rewrite (checkConnection_ready pick ctx c Hr Hd Hc), Hmsg.
  exists msg. destruct (tr_Send ctx msg (tr c)) as [[e|] t']; eexists;
    (split; [done|]; split; [done|]; split; [reflexivity|]); simpl;
    rewrite ?elem_of_app, ?list_elem_of_singleton; auto.
Qed.

(** X21.  [WithSendProperty] sets one key and keeps the others;
    [WithSendProperties] merges its map over the message's properties,
    its own entries winning; on a one-entry map the two agree; both
    allocate the map of a message that has none, so that even the empty
    map leaves the message with properties; neither fails. *)
Theorem send_properties_laws (msg : Message) (k v : string) (m : gmap string string) :
  (∃ props, Properties (WithSendProperty k v msg).2 = Some props
     ∧ props !! k = Some v
     ∧ ∀ k', k' ≠ k → props !! k' = default ∅ (Properties msg) !! k')
  ∧ (∃ props, Properties (WithSendProperties m msg).2 = Some props
       ∧ ∀ k', props !! k'
               = match m !! k' with
                 | Some v' => Some v'
                 | None => default ∅ (Properties msg) !! k'
                 end)
  ∧ WithSendProperties {[k := v]} msg = WithSendProperty k v msg
  ∧ (Properties msg = None → Properties (WithSendProperties ∅ msg).2 = Some ∅)
  ∧ (WithSendProperty k v msg).1 = None ∧ (WithSendProperties m msg).1 = None.
Proof.
  split; [|split; [|split; [|split]]].
  - eexists. split; [done|]. split; [by rewrite lookup_insert_eq|].
    intros k' Hne. by rewrite lookup_insert_ne.
  - eexists. split; [done|]. intros k'. rewrite lookup_union.
    destruct (m !! k'), (default ∅ (Properties msg) !! k'); done.
  - unfold WithSendProperties, WithSendProperty. by rewrite insert_union_singleton_l.
  - intros Hp. simpl. rewrite Hp. simpl. by rewrite (left_id_L ∅ (∪)).
  - done.
Qed.

End iotdevice_options.

(** ** iotdevice: construction and twin state *)
Section iotdevice_new.
Import iotdevice.
Context {T : Type} `{Transport T}.
Variable NewSASCredentials : string → Credentials + error.
Variable NewX509Credentials : string → string → Certificate → Credentials + error.
Variable LoadX509KeyPair : string → string → Certificate + error.
Variable tr_SetLogger : Logger → T → T.

(** Options that leave the transport alone keep it unset. *)
Lemma apply_client_opts_no_transport (opts : list (ClientOption T)) (b b' : builder T) :
  Forall (λ opt, ∀ b0, b_tr (opt b0).2 = b_tr b0) opts →
  apply_client_opts opts b = inr b' → b_tr b' = b_tr b.
Proof.
  intros Hall. revert b. induction Hall as [|opt opts Hopt Hall IH]; intros b; simpl.
  - by intros [= ->].
  - specialize (Hopt b). destruct (opt b) as [[e|] b1]; [done|].
    intros Hb. rewrite (IH b1 Hb). exact Hopt.
Qed.

(** Every option of the package but [WithTransport] leaves the
    transport alone. *)
Lemma package_options_keep_transport (l : Logger) (cr : Credentials)
    (cs deviceID hostname certFile keyFile : string) (crt : Certificate) :
  Forall (λ opt : ClientOption T, ∀ b0, b_tr (opt b0).2 = b_tr b0)
    ([WithLogger l; WithConnectionString NewSASCredentials cs;
      WithX509FromCert NewX509Credentials deviceID hostname crt;
      WithX509FromFile NewX509Credentials LoadX509KeyPair deviceID hostname certFile keyFile]
     ++ match WithCredentials (Some cr) with inr opt => [opt] | inl _ => [] end).
Proof.
  repeat constructor; intros b0;
    unfold WithConnectionString, WithX509FromFile, WithX509FromCert; simpl;
    repeat case_match; done.
Qed.

(** X22.  [New] fails when no option sets a transport: with options
    that leave the transport alone it returns an error, and when the
    options themselves succeed that error is [transport required]. *)
Theorem NewClient_needs_transport (env_cs : string) (env_logger : Logger)
    (opts : list (ClientOption T)) :
  Forall (λ opt, ∀ b0, b_tr (opt b0).2 = b_tr b0) opts →
  ∃ err, NewClient NewSASCredentials tr_SetLogger env_cs env_logger opts = inr err
    ∧ (∀ b, apply_client_opts opts (mkBuilder None None env_logger) = inr b →
         err = errors_New "transport required").
Proof.
  intros Hall. unfold NewClient.
  destruct (apply_client_opts opts _) as [e|b] eqn:Hb.
  - exists e. by split.
  - rewrite (apply_client_opts_no_transport opts _ b Hall Hb). simpl.
    eexists. by split.
Qed.

(** A client that [New] returns is the fresh client over the transport
    and the credentials the options left, with the logger set. *)
Lemma NewClient_inl (env_cs : string) (env_logger : Logger)
    (opts : list (ClientOption T)) (c : Client T) :
  NewClient NewSASCredentials tr_SetLogger env_cs env_logger opts = inl c →
  ∃ b t cr, apply_client_opts opts (mkBuilder None None env_logger) = inr b
    ∧ b_tr b = Some t ∧ c = New cr (tr_SetLogger (b_logger b) t).
Proof.
  unfold NewClient.
  destruct (apply_client_opts opts _) as [e|b]; [done|].
  destruct (b_tr b) as [t|] eqn:Ht; [|done].
  destruct (b_creds b) as [cr|].
  - intros [= <-]. by exists b, t, cr.
  - case_decide; [done|]. destruct (NewSASCredentials env_cs) as [cr|e]; [|done].
    intros [= <-]. by exists b, t, cr.
Qed.

(** X23.  A client that [New] returns is neither ready nor closed, has
    made no call, has three fresh multiplexers, and works over the
    transport the options set, with the logger the options left given to
    it.  Until [Connect] succeeds its wait, and so [SendEvent], blocks
    under a live context. *)
Theorem NewClient_fresh (env_cs : string) (env_logger : Logger)
    (opts : list (ClientOption T)) (c : Client T) :
  NewClient NewSASCredentials tr_SetLogger env_cs env_logger opts = inl c →
  ready c = false ∧ done c = false ∧ calls c = []
  ∧ evMux c = newMux ∧ tsMux c = newMux ∧ dmMux c = newMux
  ∧ (∃ b t, apply_client_opts opts (mkBuilder None None env_logger) = inr b
       ∧ b_tr b = Some t ∧ tr c = tr_SetLogger (b_logger b) t)
  ∧ (∀ pick ctx, ctx_Err ctx = None → checkConnection pick ctx c = None)
  ∧ (∀ pick ctx payload sopts, ctx_Err ctx = None →
       SendEvent pick ctx payload sopts c = Blocked).
Proof.
  intros (b & t & cr & Hb & Ht & ->)%NewClient_inl.
  do 6 (split; [done|]). split; [by exists b, t|]. split.
  - intros pick ctx Hc. by apply checkConnection_blocked.
  - intros pick ctx payload sopts Hc. unfold SendEvent.
    by rewrite checkConnection_blocked.
Qed.

Lemma apply_client_opts_app (pre post : list (ClientOption T)) (b : builder T) :
  apply_client_opts (pre ++ post) b
  = match apply_client_opts pre b with
    | inl e => inl e
    | inr b' => apply_client_opts post b'
    end.
Proof.
  revert b. induction pre as [|opt pre IH]; intros b; [done|].
  simpl. destruct (opt b) as [[e|] b1]; [done|]. apply IH.
Qed.

(** X24.  [New] applies its options in order and stops at the first
    that fails: its error is returned, and the options after it are not
    looked at. *)
Theorem NewClient_option_error (env_cs : string) (env_logger : Logger)
    (pre post : list (ClientOption T)) (opt : ClientOption T) (b : builder T) (e : error) :
  apply_client_opts pre (mkBuilder None None env_logger) = inr b →
  (opt b).1 = Some e →
  NewClient NewSASCredentials tr_SetLogger env_cs env_logger (pre ++ opt :: post) = inr e.
Proof.
  intros Hpre Hopt. unfold NewClient. rewrite apply_client_opts_app, Hpre. simpl.
  destruct (opt b) as [r b1]. simpl in Hopt. by subst r.
Qed.

(** X25.  Credentials in [New].  When the options set credentials, the
    environment is not consulted.  When they set none, an empty
    connection string in the environment is the error
    [$IOTHUB_DEVICE_CONNECTION_STRING is empty], and a non-empty one is
    parsed: its credentials are used, or its error is returned. *)
Theorem NewClient_credentials (env_logger : Logger) (opts : list (ClientOption T))
    (b : builder T) (t : T) :
  apply_client_opts opts (mkBuilder None None env_logger) = inr b →
  b_tr b = Some t →
  (∀ cr env_cs, b_creds b = Some cr →
     NewClient NewSASCredentials tr_SetLogger env_cs env_logger opts
     = inl (New cr (tr_SetLogger (b_logger b) t)))
  ∧ (b_creds b = None →
     NewClient NewSASCredentials tr_SetLogger EmptyString env_logger opts
     = inr (errors_New "$IOTHUB_DEVICE_CONNECTION_STRING is empty")
     ∧ ∀ env_cs, env_cs ≠ EmptyString →
         NewClient NewSASCredentials tr_SetLogger env_cs env_logger opts
         = match NewSASCredentials env_cs with
           | inl cr => inl (New cr (tr_SetLogger (b_logger b) t))
           | inr err => inr err
           end).
Proof.
  intros Hb Ht. unfold NewClient. rewrite Hb, Ht. split.
  - by intros cr env_cs ->.
  - intros ->. split; [done|]. intros env_cs Hne. rewrite decide_False by done.
    by destruct (NewSASCredentials env_cs).
Qed.

End iotdevice_new.

(** ** iotdevice: twin state on the error paths *)
Section iotdevice_twin.
Import iotdevice.
Context {T : Type} `{Transport T}.
Variable json_Unmarshal_twin : bytes → (option (gmap string value) * option (gmap string value)) + error.
Variable json_Marshal : gmap string value → bytes * option error.

(** X26.  Twin state on the error paths.  [RetrieveTwinState] returns
    no properties with an error, and calls the transport at most once.
    [UpdateTwinState] of a state that cannot be encoded never reaches the
    transport: it blocks or returns version 0 with an error and the
    client unchanged; when it does reach the transport, the encoding
    succeeded and the result is the transport's. *)
Theorem twin_state_error_paths (pick : nat) (ctx : Context) (c : Client T) :
  (∀ d p e c', RetrieveTwinState json_Unmarshal_twin pick ctx c = Ret (d, p, Some e, c') →
     d = None ∧ p = None)
  ∧ (∀ d p r c', RetrieveTwinState json_Unmarshal_twin pick ctx c = Ret (d, p, r, c') →
       calls c' = calls c ∨ calls c' = calls c ++ [CallRetrieveTwinProperties])
  ∧ (∀ s b e, json_Marshal s = (b, Some e) →
       UpdateTwinState json_Marshal pick ctx s c = Blocked
       ∨ ∃ e', UpdateTwinState json_Marshal pick ctx s c = Ret (0%Z, Some e', c))
  ∧ (∀ s v r c', UpdateTwinState json_Marshal pick ctx s c = Ret (v, r, c') →
       calls c' = calls c
       ∨ ∃ b, json_Marshal s = (b, None)
           ∧ calls c' = calls c ++ [CallUpdateTwinProperties b]
           ∧ (v, r) = (tr_UpdateTwinProperties ctx b (tr c)).1).
Proof.
  unfold RetrieveTwinState, UpdateTwinState.
  destruct (checkConnection pick ctx c) as [[e0|]|]; repeat split; intros;
    simplify_eq/=; eauto.
  - destruct (tr_RetrieveTwinProperties ctx (tr c)) as [[b [e1|]] t']; simplify_eq/=;
      [done|]. by destruct (json_Unmarshal_twin b) as [[]|]; simplify_eq/=.
  - destruct (tr_RetrieveTwinProperties ctx (tr c)) as [[b [e1|]] t']; simplify_eq/=;
      [done|]. by destruct (json_Unmarshal_twin b) as [[]|]; simplify_eq/=.
  - destruct (tr_RetrieveTwinProperties ctx (tr c)) as [[b [e1|]] t']; simplify_eq/=;
      [by right|]. destruct (json_Unmarshal_twin b) as [[]|]; simplify_eq/=; by right.
  - match goal with Hm : json_Marshal _ = _ |- _ => rewrite Hm end. eauto.
  - destruct (json_Marshal s) as [b [e1|]] eqn:Hm; simplify_eq/=; [by left|].
    destruct (tr_UpdateTwinProperties ctx b (tr c)) as [[v' r'] t'] eqn:Hu.
    simplify_eq/=. right. exists b. by rewrite Hu.
Qed.

End iotdevice_twin.

(** ** eventhub: from discovery to the fan-in *)
Section eventhub_start.
Import eventhub.
Context {W : Type} `{Env W}.

(** A response that yields identifiers is accepted. *)
Lemma read_response_ids_accepted (msgID : string) (msg : Message) (ids : list string)
    (b : bool) :
  read_response msgID msg = (Ids ids, b) → b = true.
Proof.
  unfold read_response. repeat case_match; by intros [= <-].
Qed.

(** Identifiers come back only from a response that was received and
    accepted. *)
Lemma getPartitionIDs_ids (ctx : Context) (name : string) (st : St W) :
  match (getPartitionIDs ctx name st).1 with
  | Ids ids =>
      ∃ l msg msgID,
        CallReceive l (inl msg) ∈ new_calls st (getPartitionIDs ctx name st).2
        ∧ CallAccept msg ∈ new_calls st (getPartitionIDs ctx name st).2
        ∧ read_response msgID msg = (Ids ids, true)
  | _ => True
  end.
Proof.
  unfold_session; repeat split_run; trace_goal; try done.
  all: try match goal with
           | Hr : read_response _ _ = (Ids _, false) |- _ =>
               by apply read_response_ids_accepted in Hr
           end.
  all: do 3 eexists; rewrite ?elem_of_cons.
  all: split; [eauto 20|split; [eauto 20|eassumption]].
Qed.

(** X15.  When the [SubscribePartitions] method gets past discovery, the
    partitions it is about to open are what the accepted management
    response says under [partition_ids], both channels have one slot for
    each, and nothing else has happened yet: no receiver is open, the
    channels are empty and the context is the caller's. *)
Theorem SubscribePartitions_start_ids (ctx : Context) (name group : string)
    (c : Client W) (s : FanIn W) :
  Client_SubscribePartitions ctx name group c = Started s →
  ∃ l msg val ids,
    CallReceive l (inl msg) ∈ new_calls (cl_st c) (fan_st s)
    ∧ CallAccept msg ∈ new_calls (cl_st c) (fan_st s)
    ∧ ApplicationProperties msg !! "status-code" = Some (VInt32 200)
    ∧ Value msg = VMap val ∧ val !! "partition_ids" = Some (VStrings ids)
    ∧ fan_main s = MRunning ids ∧ fan_cap s = length ids
    ∧ fan_workers s = [] ∧ fan_msgc s = [] ∧ fan_errc s = []
    ∧ fan_dispatched s = [] ∧ fan_ctx s = ctx.
Proof.
  unfold Client_SubscribePartitions, SubscribePartitions_start.
  pose proof (getPartitionIDs_ids ctx name (cl_st c)) as Hids.
  destruct (getPartitionIDs ctx name (cl_st c)) as [[ids|err|msg] st'];
    [|done..].
  intros [= <-]. simpl in *.
  destruct Hids as (l & msg & msgID & Hrecv & Hacc & Hresp).
  destruct (read_response_ids msgID msg ids true Hresp)
    as (Hrc & p & val & _ & _ & Hval & Hpids).
  exists l, msg, val, ids. repeat split; done.
Qed.

End eventhub_start.

(** ** eventhub: the request of a token put *)
Section eventhub_put_request.
Import eventhub.
Context {W : Type} `{Env W}.

(** X27.  Whatever [PutToken] sends is the put-token message for the
    audience and the token, under a message id; it goes out on a link to
    [$cbs], after a receiver from [$cbs] was opened; and the call sends
    once. *)
Theorem PutToken_request (ctx : Context) (audience token : string) (st : St W)
    (l : Link) (msg : Message) (r : option error) :
  CallSend l msg r ∈ new_calls st (PutToken ctx audience token st).2 →
  ∃ mid n1 n2,
    msg = put_token_message audience token mid
    ∧ l = mkLink n1 [LinkTargetAddress "$cbs"]
    ∧ CallNewReceiver [LinkSourceAddress "$cbs"] (inl n2)
        ∈ new_calls st (PutToken ctx audience token st).2
    ∧ count_calls is_send (new_calls st (PutToken ctx audience token st).2) = 1.
Proof.
  unfold_session; repeat split_run; trace_goal; intros Hin.
  all: try (exfalso; intuition congruence).
  all: do 3 eexists; rewrite ?elem_of_cons.
  all: intuition (simplify_eq; eauto 20).
Qed.

End eventhub_put_request.

(** ** iotdevice: connecting a closed client *)
Section iotdevice_reconnect.
Import iotdevice.
Context {T : Type} `{Transport T}.

(** [Close] leaves [ready] and the credentials as they are. *)
Lemma Close_keeps_ready (c : Client T) :
  ready (Close c).2 = ready c ∧ creds (Close c).2 = creds c.
Proof. unfold Close. destruct (done c); [done|]. by destruct (tr_Close _). Qed.

(** X28.  [Connect] does not look at [done].  On a client that was
    closed before it ever became ready, [Connect] still goes to the
    transport, and when the transport connects the client becomes ready
    while it stays closed: from then on the wait can let a caller
    through. *)
Theorem Connect_after_Close (ctx : Context) (c : Client T) (t' : T) :
  ready c = false →
  tr_Connect ctx (creds c) (tr (Close c).2) = (None, t') →
  (Connect ctx (Close c).2).1 = None
  ∧ ready (Connect ctx (Close c).2).2 = true
  ∧ done (Connect ctx (Close c).2).2 = true
  ∧ calls (Connect ctx (Close c).2).2 = calls (Close c).2 ++ [CallConnect]
  ∧ ∀ ctx', checkConnection 0 ctx' (Connect ctx (Close c).2).2 = Some None.
Proof.
  intros Hr Hconn. destruct (Close_keeps_ready c) as [Hr' Hcr].
  rewrite Hr in Hr'. rewrite <- Hcr in Hconn.
  rewrite (Connect_success ctx (Close c).2 t' Hr' Hconn). simpl.
  pose proof (Close_closes c) as Hd.
  do 2 (split; [done|]). split; [done|]. split; [done|].
  intros ctx'. by apply checkConnection_ready_and_closed.
Qed.

End iotdevice_reconnect.

(** ** The further theorems at concrete inputs *)

(** A dial to the host that answers, and one to a host that does not. *)
Lemma Dial_example :
  (∃ c, eventhub.Dial "hub.example" st_silent = inl c)
  ∧ eventhub.Dial "nowhere.example" st_silent = inr (external "no such host", st_silent).
Proof. split; [eexists|]; reflexivity. Qed.

Lemma getPartitionIDs_request_witness :
  eventhub.count_calls eventhub.is_send
    (eventhub.new_calls st_read_ok
       (eventhub.getPartitionIDs background "telemetry" st_read_ok).2) = 1.
Proof.
  destruct (getPartitionIDs_request background "telemetry" st_read_ok
              (eventhub.mkLink 1 [eventhub.LinkTargetAddress "$management";
                                  eventhub.LinkSourceAddress "uuid-0"])
              (eventhub.read_request "telemetry" "uuid-1" "uuid-0") None)
    as (_ & _ & _ & _ & _ & _ & _ & Hcount).
  - vm_compute. repeat constructor.
  - exact Hcount.
Defined.

Lemma getPartitionIDs_accepts_witness :
  ∃ msgID,
    eventhub.CallAccept (script.response 200 "OK" "uuid-1" (VString "no map"))
      ∈ eventhub.new_calls st_read_bad_payload
          (eventhub.getPartitionIDs background "telemetry" st_read_bad_payload).2
    ↔ eventhub.ApplicationProperties (script.response 200 "OK" "uuid-1" (VString "no map"))
        !! "status-code" = Some (VInt32 200)
      ∧ ∃ p, eventhub.Properties (script.response 200 "OK" "uuid-1" (VString "no map"))
             = Some p
           ∧ eventhub.CorrelationID p = VString msgID.
Proof.
  destruct (getPartitionIDs_accepts background "telemetry" st_read_bad_payload
              (eventhub.mkLink 0 [eventhub.LinkSourceAddress "$management";
                                  eventhub.LinkTargetAddress "uuid-0"])
              (script.response 200 "OK" "uuid-1" (VString "no map")))
    as (_ & msgID & _ & _ & Hacc & _).
  - vm_compute. repeat constructor.
  - exists msgID. exact Hacc.
Defined.

Lemma Close_session_failure_witness :
  (eventhub.Close_n 3 stubborn_client).1 = [Some busy; None; None]
  ∧ eventhub.done (eventhub.Close_n 3 stubborn_client).2 = true
  ∧ eventhub.new_calls (eventhub.cl_st stubborn_client)
      (eventhub.cl_st (eventhub.Close_n 3 stubborn_client).2)
    = [eventhub.CallSessClose (Some busy)].
Proof.
  destruct (Close_session_failure 2 stubborn_client busy)
    as (Hres & Hdone & Hcalls & _); [reflexivity..|].
  split; [exact Hres|]. split; [exact Hdone|exact Hcalls].
Defined.

Lemma SubscribePartitions_start_ids_witness :
  ∃ msg val,
    eventhub.CallAccept msg
      ∈ eventhub.new_calls st_read_ok
          (eventhub.getPartitionIDs background "telemetry" st_read_ok).2
    ∧ eventhub.Value msg = VMap val
    ∧ val !! "partition_ids" = Some (VStrings ["0"; "1"]).
Proof.
  destruct (SubscribePartitions_start_ids background "telemetry" "$Default"
              (eventhub.mkClient st_read_ok false)
              (eventhub.fan_start "telemetry" "$Default"
                 (eventhub.getPartitionIDs background "telemetry" st_read_ok).2
                 background ["0"; "1"]))
    as (l & msg & val & ids & _ & Hacc & _ & Hval & Hids & Hmain & _).
  - vm_compute. reflexivity.
  - exists msg, val. split; [exact Hacc|]. split; [exact Hval|].
    injection Hmain as <-. exact Hids.
Defined.

Lemma SubscribePartitions_accepts_before_dispatch_witness :
  eventhub.CallAccept script.M1 ∈ eventhub.st_calls (eventhub.fan_st scenario)
  ∧ eventhub.CallAccept script.M2 ∈ eventhub.st_calls (eventhub.fan_st scenario).
Proof.
  split.
  - apply (SubscribePartitions_accepts_before_dispatch "telemetry" "$Default"
             (script.st_with scenario_T [inl script.M1; inl script.M2; inr script.E])
             background ["0"; "1"] script.scenario_schedule script.M1).
    left. vm_compute. repeat constructor.
  - apply (SubscribePartitions_accepts_before_dispatch "telemetry" "$Default"
             (script.st_with scenario_T [inl script.M1; inl script.M2; inr script.E])
             background ["0"; "1"] script.scenario_schedule script.M2).
    right. vm_compute. repeat constructor.
Defined.

Lemma SubscribePartitions_stuck_goroutine_witness :
  eventhub.fan_main stuck = eventhub.MReturned script.E
  ∧ eventhub.fan_msgc stuck = [script.M1; script.M2]
  ∧ ∀ sched,
      eventhub.worker_step 0 (eventhub.run sched stuck) = None
      ∧ eventhub.fan_dispatched (eventhub.run sched stuck) = [].
Proof.
  split; [vm_compute; reflexivity|]. split; [vm_compute; reflexivity|].
  intros sched.
  destruct (SubscribePartitions_stuck_goroutine stuck script.E 0
              (eventhub.mkWorker
                 (eventhub.mkLink 0
                    (eventhub.partition_link_options "telemetry" "$Default" "0" scenario_T))
                 (eventhub.WSendMsg script.M3))
              script.M3 sched)
    as (_ & Hstep & Hd).
  - vm_compute. reflexivity.
  - vm_compute. lia.
  - vm_compute. reflexivity.
  - reflexivity.
  - split; [exact Hstep|]. rewrite Hd. vm_compute. reflexivity.
Defined.

Lemma data_plane_needs_ready_witness :
  ∃ r c',
    iotdevice.SendEvent 0 cancelled (Some []) [] script.fresh_client = Ret (r, c')
    ∧ is_Some r ∧ c' = script.fresh_client.
Proof.
  destruct (data_plane_needs_ready no_twin marshal_empty 0 cancelled script.fresh_client
              eq_refl) as (Hsend & _).
  exists (Some (context_Err Canceled)), script.fresh_client. split; [reflexivity|].
  apply (Hsend (Some []) []). reflexivity.
Defined.

Lemma Close_unblocks_waiters_witness :
  iotdevice.checkConnection 0 background script.fresh_client = None
  ∧ iotdevice.checkConnection 0 background (iotdevice.Close script.fresh_client).2
    = Some (Some iotdevice.ErrClosed)
  ∧ iotdevice.SendEvent 0 background (Some []) [] script.fresh_client = Blocked.
Proof.
  destruct (Close_unblocks_waiters no_twin marshal_empty 0 0 background script.fresh_client
              eq_refl eq_refl eq_refl) as (Hwait & Hclosed & Hsend & _).
  split; [exact Hwait|]. split; [exact Hclosed|]. apply (Hsend (Some []) []).
Defined.

Lemma SendEvent_builtin_options_witness :
  ∃ msg c',
    iotdevice.SendEvent 0 background (Some [Byte.x01])
      [iotdevice.WithSendQoS 1; iotdevice.WithSendProperty "k" "v"] connected_client
    = Ret (None, c')
    ∧ iotdevice.Payload msg = Some [Byte.x01]
    ∧ iotdevice.CallSend msg ∈ iotdevice.calls c'.
Proof.
  destruct (SendEvent_builtin_options 0 background [Byte.x01]
              [iotdevice.WithSendQoS 1; iotdevice.WithSendProperty "k" "v"]
              connected_client)
    as (msg & c' & _ & Hp & Hsend & Hin).
  - repeat constructor.
  - reflexivity.
  - reflexivity.
  - reflexivity.
  - exists msg, c'. split; [exact Hsend|]. split; [exact Hp|exact Hin].
Defined.

Lemma NewClient_needs_transport_witness :
  iotdevice.NewClient script.sas script.set_logger EmptyString 0 no_transport_options
  = inr (errors_New "transport required").
Proof.
  destruct (NewClient_needs_transport script.sas script.set_logger EmptyString 0
              no_transport_options) as (err & Herr & Hreq).
  - repeat (apply Forall_cons; split; [intros b0; reflexivity|]). by apply Forall_nil.
  - rewrite Herr. f_equal. eapply Hreq. reflexivity.
Defined.

Lemma NewClient_fresh_witness :
  ∃ c, iotdevice.NewClient script.sas script.set_logger EmptyString 0 device_options = inl c
    ∧ iotdevice.ready c = false ∧ iotdevice.done c = false
    ∧ iotdevice.SendEvent 0 background (Some []) [] c = Blocked.
Proof.
  eexists. split; [reflexivity|].
  destruct (NewClient_fresh script.sas script.set_logger EmptyString 0 device_options _
              eq_refl) as (Hr & Hd & _ & _ & _ & _ & _ & _ & Hsend).
  split; [exact Hr|]. split; [exact Hd|]. apply Hsend. reflexivity.
Defined.

Lemma NewClient_option_error_witness :
  iotdevice.NewClient script.sas script.set_logger script.a_connection_string 0
    ([iotdevice.WithLogger 7]
     ++ iotdevice.WithConnectionString script.sas "garbage" :: device_options)
  = inr (external "malformed connection string").
Proof.
  apply (NewClient_option_error script.sas script.set_logger script.a_connection_string 0
           [iotdevice.WithLogger 7] device_options
           (iotdevice.WithConnectionString script.sas "garbage")
           (iotdevice.mkBuilder None None 7));
    reflexivity.
Defined.

Lemma NewClient_credentials_witness :
  iotdevice.NewClient script.sas script.set_logger EmptyString 0 device_options
  = inl (iotdevice.New script.a_device (script.mkTransport [] None)).
Proof.
  destruct (NewClient_credentials script.sas script.set_logger 0 device_options
              (iotdevice.mkBuilder (Some script.a_device)
                 (Some (script.mkTransport [] None)) 7)
              (script.mkTransport [] None) eq_refl eq_refl) as [Hset _].
  apply (Hset script.a_device EmptyString). reflexivity.
Defined.

Lemma PutToken_request_witness :
  eventhub.count_calls eventhub.is_send
    (eventhub.new_calls st_put_ok
       (eventhub.PutToken background "audience" "token" st_put_ok).2) = 1.
Proof.
  destruct (PutToken_request background "audience" "token" st_put_ok
              (eventhub.mkLink 0 [eventhub.LinkTargetAddress "$cbs"])
              (eventhub.put_token_message "audience" "token" "uuid-0") None)
    as (_ & _ & _ & _ & _ & _ & Hcount).
  - vm_compute. repeat constructor.
  - exact Hcount.
Defined.

Lemma Connect_after_Close_witness :
  iotdevice.ready (iotdevice.Connect background (iotdevice.Close script.fresh_client).2).2
  = true
  ∧ iotdevice.done (iotdevice.Connect background (iotdevice.Close script.fresh_client).2).2
    = true
  ∧ iotdevice.checkConnection 0 background
      (iotdevice.Connect background (iotdevice.Close script.fresh_client).2).2
    = Some None.
Proof.
  destruct (Connect_after_Close background script.fresh_client (script.mkTransport [] None))
    as (_ & Hr & Hd & _ & Hwait); [reflexivity..|].
  split; [exact Hr|]. split; [exact Hd|apply Hwait].
Defined.
